(** * jqsh: the filter engine, its builtins and its tokenizer/parser

    A shallow embedding of [jqsh/filter.py], [jqsh/functions.py] and
    [jqsh/parser.py].  Python modules become Rocq modules of the same name,
    classes become constructors, methods become functions named
    [Class_method].  Python strings are sequences of code points. *)

From Stdlib Require Import ZArith NArith List String Ascii Lia Bool.
From stdpp Require Import base option list gmap strings.

Set Default Proof Using "Type".
Set Warnings "-register-all".
Local Open Scope N_scope.
Local Open Scope nat_scope.

(** ** Python strings *)

(** A Python [str]: a sequence of Unicode code points. *)
Definition str := list N.

(** An ASCII literal of the source as a [str]. *)
Definition lit (s : string) : str := map N_of_ascii (list_ascii_of_string s).

(** [s.startswith(prefix)] *)
Fixpoint startswith (s prefix : str) {struct prefix} : bool :=
  match prefix, s with
  | [], _ => true
  | p :: prefix', c :: s' => N.eqb c p && startswith s' prefix'
  | _ :: _, [] => false
  end.

(** [sep.join(parts)] *)
Fixpoint join (sep : str) (parts : list str) : str :=
  match parts with
  | [] => []
  | [p] => p
  | p :: ps => p ++ sep ++ join sep ps
  end.

(** [c in s] for a one-character [c] *)
Definition char_in (c : N) (s : str) : bool := existsb (N.eqb c) s.

(** ['{:04x}'.format(n)]: lower-case hexadecimal, zero-padded to four digits. *)
Definition hex_digit (d : N) : N :=
  if (d <? 10)%N then (48 + d)%N else (87 + d)%N.

Fixpoint hex_digits (fuel : nat) (n : N) (acc : str) : str :=
  match fuel with
  | O => acc
  | S fuel' =>
      let acc' := hex_digit (n mod 16)%N :: acc in
      if (n / 16 =? 0)%N then acc' else hex_digits fuel' (n / 16)%N acc'
  end.

Definition format_04x (n : N) : str :=
  let digits := hex_digits 64 n [] in
  replicate (4 - length digits) 48%N ++ digits.

(** ** [decimal.Decimal] *)

(** Modelled from the spec: [jqsh/values.py] and Python's [decimal] are not
    part of the sources; a Number is an arbitrary-precision decimal, kept
    here as [coefficient * 10 ^ exponent]. *)
Record Decimal := mkDecimal { coefficient : Z; exponent : Z }.

Module Decimal.
Definition of_Z (z : Z) : Decimal := mkDecimal z 0.

(** both operands brought to the smaller exponent *)
Definition align (d : Decimal) (e : Z) : Z :=
  (coefficient d * 10 ^ (exponent d - e))%Z.

Definition add (a b : Decimal) : Decimal :=
  let e := Z.min (exponent a) (exponent b) in
  mkDecimal (align a e + align b e) e.

Definition mul (a b : Decimal) : Decimal :=
  mkDecimal (coefficient a * coefficient b) (exponent a + exponent b).

(** [d % 1 == 0] *)
Definition is_integer (d : Decimal) : bool :=
  if (0 <=? exponent d)%Z then true
  else (Z.rem (coefficient d) (10 ^ (- exponent d)) =? 0)%Z.

(** [int(d)]: truncation towards zero *)
Definition to_int (d : Decimal) : Z :=
  if (0 <=? exponent d)%Z then (coefficient d * 10 ^ exponent d)%Z
  else Z.quot (coefficient d) (10 ^ (- exponent d)).

Definition is_zero (d : Decimal) : bool := (coefficient d =? 0)%Z.

Definition digit_value (c : N) : option Z :=
  if ((48 <=? c) && (c <=? 57))%N then Some (Z.of_N c - 48)%Z else None.

Fixpoint digits_value (s : str) (acc : Z) : option Z :=
  match s with
  | [] => Some acc
  | c :: s' =>
      match digit_value c with
      | Some d => digits_value s' (10 * acc + d)%Z
      | None => None
      end
  end.

(** [Decimal(a + '.' + b)] for two digit strings; [None] stands for
    [decimal.InvalidOperation]. *)
Definition of_parts (a b : str) : option Decimal :=
  match a ++ b with
  | [] => None
  | _ =>
      match digits_value (a ++ b) 0 with
      | Some c => Some (mkDecimal c (- Z.of_nat (length b)))
      | None => None
      end
  end.
End Decimal.

(** ** The filter tree ([jqsh/filter.py], the classes) *)

Module filter.

(** One constructor per class; [EmptyFilter] is the base class [Filter()],
    the empty filter.  [Apply] keeps [variadic_form] and [attributes];
    the other operators keep [left_operand] and [right_operand]. *)
Inductive Filter : Type :=
| EmptyFilter
| Parens (attribute : Filter)
| Array (attribute : Filter)
| Object (attribute : Filter)
| Conditional (attributes : list (str * Filter))
| Try (attributes : list (str * Filter))
| Name (name : str)
| NumberLiteral (number_string : str) (number : Decimal)
| StringLiteral (text : str)
| Pipe (left_operand right_operand : Filter)
| Add (left_operand right_operand : Filter)
| Apply (variadic_form : bool) (attributes : list Filter)
| Assign (left_operand right_operand : Filter)
| Comma (left_operand right_operand : Filter)
| Multiply (left_operand right_operand : Filter)
| Pair (left_operand right_operand : Filter)
| Semicolon (left_operand right_operand : Filter)
| Command (attribute : Filter)
| GlobalVariable (attribute : Filter).

(** [StringLiteral.escape] *)
Definition StringLiteral_escape (character : N) : str :=
  if (character =? 8)%N then lit "\b"
  else if (character =? 9)%N then lit "\t"
  else if (character =? 10)%N then lit "\n"
  else if (character =? 12)%N then lit "\f"
  else if (character =? 13)%N then lit "\r"
  else if (character =? 34)%N then [92; 34]%N
  else if (character =? 92)%N then [92; 92]%N
  else if (65536 <? character)%N then
    let codepoint := (character - 65536)%N in
    lit "\u" ++ format_04x (55296 + N.shiftr codepoint 10)
      ++ lit "\u" ++ format_04x (56320 + N.land codepoint 1023)
  else if ((character <? 32) || (127 <=? character))%N then
    lit "\u" ++ format_04x character
  else [character].

(** [__str__]: the filter's representation in jqsh. *)
Fixpoint Filter_str (f : Filter) : str :=
  match f with
  | EmptyFilter => []
  | Parens a => lit "(" ++ Filter_str a ++ lit ")"
  | Array a => lit "[" ++ Filter_str a ++ lit "]"
  | Object a => lit "{" ++ Filter_str a ++ lit "}"
  | Conditional attrs | Try attrs =>
      join (lit " ")
        ((fix clauses (l : list (str * Filter)) : list str :=
            match l with
            | [] => []
            | (attribute_name, attribute_value) :: l' =>
                (attribute_name ++ lit " " ++ Filter_str attribute_value)
                  :: clauses l'
            end) attrs)
        ++ lit " end"
  | Name name => name
  | NumberLiteral number_string _ => number_string
  | StringLiteral text =>
      [34%N] ++ concat (map StringLiteral_escape text) ++ [34%N]
  | Pipe l r => Filter_str l ++ lit " | " ++ Filter_str r
  | Add l r => Filter_str l ++ lit " + " ++ Filter_str r
  | Apply variadic_form attrs =>
      let strs :=
        (fix strs (l : list Filter) : list str :=
           match l with
           | [] => []
           | a :: l' => Filter_str a :: strs l'
           end) attrs in
      if variadic_form then join (lit " ") strs
      else
        match strs with
        | a0 :: a1 :: _ => a0 ++ lit "." ++ a1
        | _ => []
        end
  | Assign l r => Filter_str l ++ lit " = " ++ Filter_str r
  | Comma l r => Filter_str l ++ lit ", " ++ Filter_str r
  | Multiply l r => Filter_str l ++ lit " * " ++ Filter_str r
  | Pair l r => Filter_str l ++ lit ": " ++ Filter_str r
  | Semicolon l r => Filter_str l ++ lit "; " ++ Filter_str r
  | Command a => lit "!" ++ Filter_str a
  | GlobalVariable a => lit "$" ++ Filter_str a
  end.

(** [f.__class__ == Filter] *)
Definition is_EmptyFilter (f : Filter) : bool :=
  match f with EmptyFilter => true | _ => false end.

Definition is_NumberLiteral (f : Filter) : bool :=
  match f with NumberLiteral _ _ => true | _ => false end.

End filter.

(** ** Values ([jqsh/values.py]) *)

Module values.
Import filter.

(** the Python exceptions the sources raise or catch *)
Inductive PyException : Type :=
| NotImplementedError (msg : string)
| UnboundLocalError (variable : string)
| TypeError
| ValueError
| IndexError
| KeyError
| StopIteration
| RuntimeError (msg : string)
| InvalidOperation.

(** the keyword arguments a [JQSHException] is built with *)
Inductive ExceptionInfo : Type :=
| no_info
| missing_name (name : str)
| num_args (function_name : str) (expected : list (option nat)) (received : nat)
| target_filter (f : Filter)
| python_exception (e : PyException).

(** Modelled from the spec: [jqsh/values.py] is not part of the sources.
    A Value is one of Null, Boolean, Number (an arbitrary-precision
    decimal), String, Array, Object (an insertion-ordered mapping from
    Value to Value) and the in-band Exception, which carries a symbolic
    kind ([name]) and optional context.  [PyInt] is a bare Python [int],
    which [explode] yields. *)
Inductive Value : Type :=
| Null
| Boolean (b : bool)
| Number (value : Decimal)
| String (value : str)
| Array (items : list Value)
| Object (pairs : list (Value * Value))
| JQSHException (name : str) (info : ExceptionInfo)
| PyInt (n : Z).

(** [isinstance(value, jqsh.values.JQSHException)] *)
Definition is_exception (v : Value) : bool :=
  match v with JQSHException _ _ => true | _ => false end.

Definition Decimal_eqb (a b : Decimal) : bool :=
  let e := Z.min (exponent a) (exponent b) in
  (Decimal.align a e =? Decimal.align b e)%Z.

Definition str_eqb (a b : str) : bool := bool_decide (a = b).

(** [a == b] on values; exceptions compare by kind *)
Fixpoint Value_eqb (a b : Value) {struct a} : bool :=
  match a, b with
  | Null, Null => true
  | Boolean x, Boolean y => Bool.eqb x y
  | Number x, Number y => Decimal_eqb x y
  | String x, String y => str_eqb x y
  | Array xs, Array ys =>
      (fix items_eqb (xs ys : list Value) {struct xs} : bool :=
         match xs, ys with
         | [], [] => true
         | x :: xs', y :: ys' => Value_eqb x y && items_eqb xs' ys'
         | _, _ => false
         end) xs ys
  | Object xs, Object ys =>
      (fix pairs_eqb (xs ys : list (Value * Value)) {struct xs} : bool :=
         match xs, ys with
         | [], [] => true
         | (k, v) :: xs', (k', v') :: ys' =>
             Value_eqb k k' && Value_eqb v v' && pairs_eqb xs' ys'
         | _, _ => false
         end) xs ys
  | JQSHException x _, JQSHException y _ => str_eqb x y
  | PyInt x, PyInt y => (x =? y)%Z
  | _, _ => false
  end.

(** [bool(value)]: every value is truthy except [Boolean(false)], [Null],
    numeric zero and the empty String, Array and Object *)
Definition truthy (v : Value) : bool :=
  match v with
  | Null | Boolean false | String [] | Array [] | Object [] => false
  | Number d => negb (Decimal.is_zero d)
  | PyInt n => negb (n =? 0)%Z
  | _ => true
  end.

(** [key in obj] and [obj[key]] *)
Fixpoint Object_get (pairs : list (Value * Value)) (key : Value) : option Value :=
  match pairs with
  | [] => None
  | (k, v) :: pairs' => if Value_eqb k key then Some v else Object_get pairs' key
  end.

(** [obj[key] = value]: an existing key keeps its place *)
Fixpoint Object_set (pairs : list (Value * Value)) (key value : Value)
  : list (Value * Value) :=
  match pairs with
  | [] => [(key, value)]
  | (k, v) :: pairs' =>
      if Value_eqb k key then (k, value) :: pairs'
      else (k, v) :: Object_set pairs' key value
  end.

(** [obj.push(value)]: a 2-element Array [[key, value]] is stored; another
    Array raises [ValueError], a value that is no Array [TypeError] *)
Definition Object_push (pairs : list (Value * Value)) (value : Value)
  : list (Value * Value) + PyException :=
  match value with
  | Array [k; v] => inl (Object_set pairs k v)
  | Array _ => inr ValueError
  | _ => inr TypeError
  end.

(** [ret = copy.copy(left); ret.update(right)] *)
Definition Object_update (left right : list (Value * Value))
  : list (Value * Value) :=
  foldl (fun acc kv => Object_set acc kv.1 kv.2) left right.

(** [l[i]] for a Python list and an [int], negative indices from the end *)
Definition py_index {A} (l : list A) (i : Z) : option A :=
  if (0 <=? i)%Z then l !! Z.to_nat i
  else if (- Z.of_nat (length l) <=? i)%Z then l !! Z.to_nat (Z.of_nat (length l) + i)
  else None.

(** the kind of an exception value *)
Definition exception_name (v : Value) : option str :=
  match v with JQSHException name _ => Some name | _ => None end.

End values.

(** ** Channels ([jqsh/channel.py], [jqsh/context.py]) *)

Module channel.
Import filter values.

(** Modelled from the spec: [jqsh/context.py] is not part of the sources.
    The context is the read-only execution environment: process arguments
    and the flag marking the top-level invocation.  Its builtin catalog is
    the registry of [jqsh/functions.py]. *)
Record Context := mkContext {
  argv : list str;
  is_main : bool
}.

(** Modelled from the spec: [jqsh/channel.py] is not part of the sources.
    The drained view of a channel: the values pushed onto it, in order, and
    the scope metadata carried alongside. *)
Record Channel := mkChannel {
  values : list Value;
  local_namespace : gmap str (list Value);
  global_namespace : gmap str (list Value);
  context : Context
}.

(** [Channel(terminated=True)] *)
Definition empty_channel : Channel :=
  mkChannel [] ∅ ∅ (mkContext [] true).

(** the same scope metadata, other values *)
Definition with_values (c : Channel) (vs : list Value) : Channel :=
  mkChannel vs (local_namespace c) (global_namespace c) (context c).

(** [to.get_namespaces(from)]: the three fields of [from], the values of [to] *)
Definition get_namespaces (to from : Channel) : Channel :=
  with_values from (values to).

(** a fresh [Channel()] onto which only values were pushed *)
Definition fresh (vs : list Value) : Channel := with_values empty_channel vs.

(** Modelled from the spec: the producer end of a channel.  [push] appends
    a value and fails on a terminated channel; [terminate] marks the end of
    the stream.  The sources call [terminate] on channels that are already
    terminated; what the second call does is not in the sources, so the
    model counts the calls. *)
Record Producer := mkProducer {
  pushed : list Value;
  terminate_calls : nat
}.

Definition open_producer : Producer := mkProducer [] 0.

Definition is_terminated (p : Producer) : bool :=
  negb (Nat.eqb (terminate_calls p) 0).

Definition push (p : Producer) (v : Value) : option Producer :=
  if is_terminated p then None
  else Some (mkProducer (pushed p ++ [v]) (terminate_calls p)).

Definition terminate (p : Producer) : Producer :=
  mkProducer (pushed p) (S (terminate_calls p)).

End channel.

(** ** Generators and the values a worker pushes *)

Module generator.
Import filter values channel.

(** What a generator did when it is exhausted: the values it yielded, in
    order, and whether it returned or raised. *)
Record Generated := mkGenerated {
  yielded : list Value;
  raised : option PyException
}.

Definition returns (vs : list Value) : Generated := mkGenerated vs None.

Definition raises (vs : list Value) (e : PyException) : Generated :=
  mkGenerated vs (Some e).

(** [vs] yielded first, then whatever [g] does *)
Definition yield_then (vs : list Value) (g : Generated) : Generated :=
  mkGenerated (vs ++ yielded g) (raised g).

(** the first exception of a sequence of values *)
Definition first_exception (vs : list Value) : option Value :=
  find is_exception vs.

(** the values before the first exception *)
Fixpoint before_exception (vs : list Value) : list Value :=
  match vs with
  | [] => []
  | v :: vs' => if is_exception v then [] else v :: before_exception vs'
  end.

(** [for value in vs: push(value); if isinstance(value, JQSHException): break]:
    the values pushed *)
Fixpoint until_exception (vs : list Value) : list Value :=
  match vs with
  | [] => []
  | v :: vs' => v :: (if is_exception v then [] else until_exception vs')
  end.

(** [JQSHException('internal', python_exception=e, ...)] *)
Definition internal (e : PyException) : Value :=
  JQSHException (lit "internal") (python_exception e).

(** [JQSHException(kind)] *)
Definition exception (kind : string) : Value :=
  JQSHException (lit kind) no_info.

End generator.

(** ** The builtin functions ([jqsh/functions.py]) *)

Module functions.
Import filter values channel generator.

(** the functions registered by [def_builtin], by their Python names
    ([argv] is registered at arity 0 and at arity 1) *)
Inductive Builtin : Type :=
| B_argv0 | B_argv1 | B_each | B_empty | B_explode | B_false | B_isMain
| B_for | B_implode | B_nth | B_null | B_range | B_reduce | B_true.

(** the key of a function vector: a number of arguments, or ['varargs'] *)
Definition varargs : option nat := None.

(** [builtin_functions] as the decorators of the module leave it *)
Definition builtin_functions : gmap str (gmap (option nat) Builtin) :=
  list_to_map
    [ (lit "argv", list_to_map [(Some 0, B_argv0); (Some 1, B_argv1)]);
      (lit "each", {[ Some 1 := B_each ]});
      (lit "empty", {[ Some 0 := B_empty ]});
      (lit "explode", {[ Some 0 := B_explode ]});
      (lit "false", {[ Some 0 := B_false ]});
      (lit "isMain", {[ Some 0 := B_isMain ]});
      (lit "for", {[ Some 2 := B_for ]});
      (lit "implode", {[ Some 0 := B_implode ]});
      (lit "nth", {[ Some 1 := B_nth ]});
      (lit "null", {[ Some 0 := B_null ]});
      (lit "range", {[ Some 0 := B_range ]});
      (lit "reduce", {[ Some 2 := B_reduce ]});
      (lit "true", {[ Some 0 := B_true ]}) ].

(** [get_builtin] applied to a name and arguments, over a registry; [None] is [KeyError] *)
Definition get_builtin {B} (registry : gmap str (gmap (option nat) B))
    (name : str) (num_args : nat) : option B :=
  match registry !! name with
  | Some function_vector =>
      match function_vector !! Some num_args with
      | Some f => Some f
      | None => function_vector !! varargs
      end
  | None => None
  end.

Section Builtins.
(** [f.start(input_channel)], drained *)
Variable start : Filter -> Channel -> Channel.

(** [wrap_builtin(f)]: the values before the first exception of the input
    go to the bridge the generator reads; that exception is pushed onto
    the output as it is; every value the generator yields is pushed.
    The forwarding loop is scheduled before the helper thread here.  A
    generator that raises ends its thread; nothing is pushed for it. *)
Definition wrap_builtin (f : Channel -> Generated) (input : Channel) : Channel :=
  let bridge := with_values input (before_exception (values input)) in
  with_values input
    (from_option (fun e => [e]) [] (first_exception (values input))
       ++ yielded (f bridge)).

Definition builtin_argv0 (input : Channel) : Generated :=
  returns (String <$> argv (context input)).

Definition builtin_argv1 (index : Filter) (input : Channel) : Generated :=
  match values (start index input) with
  | [] => returns [exception "empty"]
  | Number d :: _ =>
      if Decimal.is_integer d then
        match py_index (argv (context input)) (Decimal.to_int d) with
        | Some argument => returns [String argument]
        | None => returns [exception "index"]
        end
      else returns [exception "integer"]
  | _ :: _ => returns [exception "type"]
  end.

Definition builtin_each (the_filter : Filter) (input : Channel) : Generated :=
  returns
    (concat ((fun value => values (start the_filter (with_values input [value])))
               <$> values input)).

Definition builtin_empty (input : Channel) : Generated := returns [].

(** [for c in string_value: yield ord(c)]; a value that is no String
    yields a type exception first, and raises in the inner loop unless it
    is an empty Array or Object *)
Fixpoint builtin_explode_loop (vs : list Value) : Generated :=
  match vs with
  | [] => returns []
  | String s :: vs' =>
      yield_then ((fun c => PyInt (Z.of_N c)) <$> s) (builtin_explode_loop vs')
  | (Array [] | Object []) :: vs' =>
      yield_then [exception "type"] (builtin_explode_loop vs')
  | _ :: _ => raises [exception "type"] TypeError
  end.

Definition builtin_explode (input : Channel) : Generated :=
  builtin_explode_loop (values input).

Definition builtin_false (input : Channel) : Generated :=
  returns [Boolean false].

Definition builtin_isMain (input : Channel) : Generated :=
  returns [Boolean (is_main (context input))].

(** [jqsh_for]: one round of [body] per input value, each round's output
    yielded *)
Fixpoint builtin_for_loop (body : Filter) (vs : list Value)
    (output_channel : Channel) : list Value :=
  match vs with
  | [] => []
  | _ :: vs' =>
      let output_channel := start body output_channel in
      values output_channel ++ builtin_for_loop body vs' output_channel
  end.

Definition builtin_for (initial body : Filter) (input : Channel) : Generated :=
  returns (builtin_for_loop body (values input) (start initial input)).

(** [implode]: the String is yielded first and filled afterwards; the
    model yields it with the characters it ends up with *)
Fixpoint builtin_implode_loop (vs : list Value) (ret : str)
  : str * option Value :=
  match vs with
  | [] => (ret, None)
  | Number d :: vs' =>
      if negb (Decimal.is_integer d) then (ret, Some (exception "integer"))
      else
        let n := Decimal.to_int d in
        if ((0 <=? n) && (n <? 1114112))%Z
        then builtin_implode_loop vs' (ret ++ [Z.to_N n])
        else (ret, Some (exception "unicode"))
  | _ :: _ => (ret, Some (exception "type"))
  end.

Definition builtin_implode (input : Channel) : Generated :=
  let '(ret, failure) := builtin_implode_loop (values input) [] in
  returns (String ret :: from_option (fun e => [e]) [] failure).

Definition builtin_nth (index : Filter) (input : Channel) : Generated :=
  match values (start index input) with
  | [] => returns [exception "empty"]
  | Number d :: _ =>
      if Decimal.is_integer d then
        (* [range(index_value)] skips that many values, none when negative *)
        match values input !! Z.to_nat (Decimal.to_int d) with
        | Some v => returns [v]
        | None => returns [exception "numValues"]
        end
      else returns [exception "integer"]
  | _ :: _ => returns [exception "type"]
  end.

Definition builtin_null (input : Channel) : Generated := returns [Null].

Definition builtin_range_value (value : Value) : list Value :=
  match value with
  | Number d =>
      if Decimal.is_integer d then
        (fun n => Number (Decimal.of_Z (Z.of_nat n)))
          <$> seq 0 (Z.to_nat (Decimal.to_int d))
      else [exception "integer"]
  | _ => [exception "type"]
  end.

Definition builtin_range (input : Channel) : Generated :=
  returns (concat (builtin_range_value <$> values input)).

Fixpoint builtin_reduce_loop (body : Filter) (vs : list Value)
    (output_channel : Channel) : Channel :=
  match vs with
  | [] => output_channel
  | _ :: vs' => builtin_reduce_loop body vs' (start body output_channel)
  end.

Definition builtin_reduce (initial body : Filter) (input : Channel) : Generated :=
  returns (values (builtin_reduce_loop body (values input) (start initial input))).

Definition builtin_true (input : Channel) : Generated :=
  returns [Boolean true].

(** [builtin(args..., input_channel, output_channel)]: the call of
    a registered function.  A call with the wrong number of arguments
    raises before anything is pushed. *)
Definition call_builtin (b : Builtin) (args : list Filter) (input : Channel)
  : Channel :=
  match b, args with
  | B_argv0, [] => wrap_builtin builtin_argv0 input
  | B_argv1, [index] => wrap_builtin (builtin_argv1 index) input
  | B_each, [the_filter] => wrap_builtin (builtin_each the_filter) input
  | B_empty, [] => wrap_builtin builtin_empty input
  | B_explode, [] => wrap_builtin builtin_explode input
  | B_false, [] => wrap_builtin builtin_false input
  | B_isMain, [] => wrap_builtin builtin_isMain input
  | B_for, [initial; body] => wrap_builtin (builtin_for initial body) input
  | B_implode, [] => wrap_builtin builtin_implode input
  | B_nth, [index] => wrap_builtin (builtin_nth index) input
  | B_null, [] => wrap_builtin builtin_null input
  | B_range, [] => wrap_builtin builtin_range input
  | B_reduce, [initial; body] => wrap_builtin (builtin_reduce initial body) input
  | B_true, [] => wrap_builtin builtin_true input
  | _, _ => fresh []
  end.

End Builtins.
End functions.

(** ** Evaluation ([jqsh/filter.py], the methods) *)

Module engine.
Import filter values channel generator functions.

(** what [subprocess.Popen] and reading the process's output give: the
    values [parse_json_values] yields and whether it read to the end *)
Inductive ProcessOutcome : Type :=
| FileNotFound
| PermissionDenied
| Stdout (parsed : list Value) (complete : bool).

(** what [Operator.output_pairs] yields: a tuple, or a single value *)
Inductive PairOutput : Type :=
| Paired (left_output right_output : Value)
| Single (output : Value).

(** the variables of [Try.run] after the loop over the clauses *)
Record TryClauses := mkTryClauses {
  try_block : option Filter;
  exception_handlers : gmap str Filter;
  default_handler : option Filter;
  else_handler : option Filter;
  exception_names : list str
}.

Section Engine.
(** [f.start(input_channel)], drained *)
Variable start : Filter -> Channel -> Channel.
(** [jqsh.functions.builtin_functions] *)
Variable registry : gmap str (gmap (option nat) Builtin).
(** the external process of [Command.run_command] *)
Variable popen : list str -> list Value -> ProcessOutcome.

(** [Filter.run]: the empty generator *)
Definition Filter_run (input : Channel) : Generated := returns [].

(** [run_thread] in [Filter.run_raw]: each yielded value is pushed, the
    loop breaks after an exception value, a raised Python exception
    becomes an internal exception value *)
Definition run_thread (g : Generated) : list Value :=
  match first_exception (yielded g), raised g with
  | None, Some e => until_exception (yielded g) ++ [internal e]
  | _, _ => until_exception (yielded g)
  end.

(** [Filter.run_raw]: the input is copied to the bridge up to and with
    its first exception, which is thrown on the output; the generator
    runs on the bridge.  When the input has an exception the forwarding
    loop is scheduled before the helper thread here, whose pushes the
    terminated output then rejects. *)
Definition Filter_run_raw (run : Channel -> Generated) (input : Channel)
  : Channel :=
  let bridge := with_values input (until_exception (values input)) in
  match first_exception (values input) with
  | Some e => with_values input [e]
  | None => with_values input (run_thread (run bridge))
  end.

(** [Filter.sensible_string], and [Name.sensible_string] which returns
    the name *)
Definition sensible_string (f : Filter) (input : Channel)
  : str + PyException :=
  match f with
  | Name name => inl name
  | _ =>
      match values (start f input) with
      | [] => inr StopIteration
      | String value :: _ => inl value
      | _ :: _ => inr TypeError
      end
  end.

Definition Parens_run (attribute : Filter) (input : Channel) : Generated :=
  returns (values (start attribute input)).

Definition Array_run (attribute : Filter) (input : Channel) : Generated :=
  returns [Array (values (start attribute input))].

(** the loop of [Object.run]: the exceptions yielded and the object *)
Fixpoint Object_run_loop (obj : list (Value * Value)) (vs : list Value)
  : list Value * list (Value * Value) :=
  match vs with
  | [] => ([], obj)
  | value :: vs' =>
      match Object_push obj value with
      | inl obj' => Object_run_loop obj' vs'
      | inr ValueError =>
          let '(ys, obj') := Object_run_loop obj vs' in
          (exception "length" :: ys, obj')
      | inr _ =>
          let '(ys, obj') := Object_run_loop obj vs' in
          (exception "type" :: ys, obj')
      end
  end.

Definition Object_run (attribute : Filter) (input : Channel) : Generated :=
  let '(ys, obj) := Object_run_loop [] (values (start attribute input)) in
  returns (ys ++ [Object obj]).

(** [Conditional.run]; [conditional] is unbound until a condition has
    been evaluated *)
Fixpoint Conditional_run_loop (attributes : list (str * Filter))
    (conditional : option bool) (input : Channel) : Generated :=
  match attributes with
  | [] => returns []
  | (attribute_name, attribute_value) :: attributes' =>
      if bool_decide (attribute_name ∈ [lit "if"; lit "elif"; lit "elseIf"]) then
        match values (start attribute_value input) with
        | [] => returns [exception "empty"]
        | next_value :: _ =>
            if is_exception next_value then returns [next_value]
            else Conditional_run_loop attributes' (Some (truthy next_value)) input
        end
      else if bool_decide (attribute_name = lit "then") then
        match conditional with
        | None => raises [] (UnboundLocalError "conditional")
        | Some true =>
            yield_then (values (start attribute_value input))
              (Conditional_run_loop attributes' conditional input)
        | Some false => Conditional_run_loop attributes' conditional input
        end
      else if bool_decide (attribute_name = lit "else") then
        match conditional with
        | None => raises [] (UnboundLocalError "conditional")
        | Some false =>
            yield_then (values (start attribute_value input))
              (Conditional_run_loop attributes' conditional input)
        | Some true => Conditional_run_loop attributes' conditional input
        end
      else raises [] (NotImplementedError "unknown clause in if filter")
  end.

Definition Conditional_run (attributes : list (str * Filter)) (input : Channel)
  : Generated :=
  Conditional_run_loop attributes None input.

(** the first loop of [Try.run]; [inr] is the exception yielded before
    the early [return] *)
Fixpoint Try_clauses (attributes : list (str * Filter)) (input : Channel)
    (st : TryClauses) : TryClauses + Value :=
  match attributes with
  | [] => inl st
  | (attribute_name, attribute_value) :: attributes' =>
      if bool_decide (attribute_name = lit "try") then
        Try_clauses attributes' input
          (mkTryClauses (Some attribute_value) (exception_handlers st)
             (default_handler st) (else_handler st) (exception_names st))
      else if bool_decide (attribute_name = lit "catch") then
        match sensible_string attribute_value input with
        | inl exception_name =>
            Try_clauses attributes' input
              (mkTryClauses (try_block st) (exception_handlers st)
                 (default_handler st) (else_handler st)
                 (exception_names st ++ [exception_name]))
        | inr _ => inr (exception "sensibleString")
        end
      else if bool_decide (attribute_name = lit "then") then
        Try_clauses attributes' input
          (mkTryClauses (try_block st)
             (foldl (fun handlers exception_name =>
                       <[exception_name := attribute_value]> handlers)
                (exception_handlers st) (exception_names st))
             (default_handler st) (else_handler st) (exception_names st))
      else if bool_decide (attribute_name = lit "except") then
        Try_clauses attributes' input
          (mkTryClauses (try_block st) (exception_handlers st)
             (Some attribute_value) (else_handler st) (exception_names st))
      else if bool_decide (attribute_name = lit "else") then
        Try_clauses attributes' input
          (mkTryClauses (try_block st) (exception_handlers st)
             (default_handler st) (Some attribute_value) (exception_names st))
      else Try_clauses attributes' input st
  end.

(** the second loop of [Try.run] and what follows it *)
Definition Try_dispatch (st : TryClauses) (try_output : list Value)
    (except_input : Channel) : Generated :=
  match first_exception try_output with
  | Some value =>
      match exception_name value with
      | Some name =>
          match exception_handlers st !! name with
          | Some handler => returns (values (start handler except_input))
          | None =>
              match default_handler st with
              | Some handler => returns (values (start handler except_input))
              | None => returns [value]
              end
          end
      | None => returns []
      end
  | None =>
      match else_handler st with
      | None => returns try_output
      | Some handler => returns (values (start handler except_input))
      end
  end.

Definition Try_run (attributes : list (str * Filter)) (input : Channel)
  : Generated :=
  match Try_clauses attributes input (mkTryClauses None ∅ None None []) with
  | inr exc => returns [exc]
  | inl st =>
      match try_block st with
      | None => raises [] (UnboundLocalError "try_block")
      | Some block => Try_dispatch st (values (start block input)) input
      end
  end.

(** [Name.run_raw] *)
Definition Name_run_raw (name : str) (input : Channel) : Channel :=
  match local_namespace input !! name with
  | Some var => with_values input var
  | None =>
      match get_builtin registry name 0 with
      | None =>
          fresh
            [ match registry !! name with
              | Some function_vector =>
                  JQSHException (lit "numArgs")
                    (num_args name (map_to_list function_vector).*1 0)
              | None => JQSHException (lit "name") (missing_name name)
              end ]
      | Some builtin => call_builtin start builtin [] input
      end
  end.

Definition NumberLiteral_run (number : Decimal) (input : Channel) : Generated :=
  returns [Number number].

Definition StringLiteral_run (text : str) (input : Channel) : Generated :=
  returns [String text].

(** [Operator.output_pairs]: both operands are started on a fork of the
    input and drained *)
Definition Operator_output_pairs (left_operand right_operand : Filter)
    (input : Channel) : list PairOutput :=
  let left_output := values (start left_operand input) in
  let right_output := values (start right_operand input) in
  if bool_decide (length left_output = 0 /\ length right_output = 0) then []
  else if bool_decide (length left_output = 0) then Single <$> right_output
  else if bool_decide (length right_output = 0) then Single <$> left_output
  else
    (fun i =>
       Paired (default Null (left_output !! (i mod length left_output)))
         (default Null (right_output !! (i mod length right_output))))
      <$> seq 0 (max (length left_output) (length right_output)).

Definition Pipe_run (left_operand right_operand : Filter) (input : Channel)
  : Generated :=
  returns (values (start right_operand (start left_operand input))).

(** the body of the loop of [Add.run] on a tuple *)
Definition Add_combine (left_output right_output : Value) : Value :=
  match left_output, right_output with
  | Number a, Number b => Number (Decimal.add a b)
  | Array a, Array b => Array (a ++ b)
  | String a, String b => String (a ++ b)
  | Object a, Object b => Object (Object_update a b)
  | _, _ => exception "type"
  end.

Definition combine_outputs (combine : Value -> Value -> Value)
    (output : PairOutput) : Value :=
  match output with
  | Paired left_output right_output => combine left_output right_output
  | Single v => v
  end.

Definition Add_run (left_operand right_operand : Filter) (input : Channel)
  : Generated :=
  returns (combine_outputs Add_combine
             <$> Operator_output_pairs left_operand right_operand input).

(** the loop of the subscript branch of [Apply.run_raw]: the values
    pushed, and the exception thrown if any *)
Fixpoint Apply_subscript_loop (key : Value) (vs : list Value)
  : list Value * option Value :=
  match vs with
  | [] => ([], None)
  | value :: vs' =>
      let found :=
        match value with
        | Object pairs =>
            match Object_get pairs key with
            | Some v => inl v
            | None => inr (exception "key")
            end
        | Array items =>
            match key with
            | Number d =>
                if Decimal.is_integer d then
                  match py_index items (Decimal.to_int d) with
                  | Some v => inl v
                  | None => inr (exception "index")
                  end
                else inr (exception "integer")
            | _ => inr (exception "type")
            end
        | _ => inr (exception "type")
        end in
      match found with
      | inl v =>
          let '(pushes, thrown) := Apply_subscript_loop key vs' in
          (v :: pushes, thrown)
      | inr exc => ([], Some exc)
      end
  end.

(** [Command.run_command] *)
Definition Command_run_command (command_name : list str) (input : Channel)
  : list Value :=
  match popen command_name (values input) with
  | FileNotFound => [exception "path"]
  | PermissionDenied => [exception "permission"]
  | Stdout parsed complete =>
      parsed ++ (if complete then [] else [exception "commandOutput"])
  end.

(** the sensible strings of a list of filters, or the first failure *)
Fixpoint sensible_strings (fs : list Filter) (input : Channel)
  : list str + PyException :=
  match fs with
  | [] => inl []
  | f :: fs' =>
      match sensible_string f input with
      | inl s =>
          match sensible_strings fs' input with
          | inl ss => inl (s :: ss)
          | inr e => inr e
          end
      | inr e => inr e
      end
  end.

(** [Apply.run_raw].  A branch that returns before [get_namespaces]
    leaves the scope metadata of the output as it was created. *)
Definition Apply_run_raw (attributes : list Filter) (input : Channel)
  : Channel :=
  if forallb is_EmptyFilter attributes then input
  else
    match attributes with
    | [NumberLiteral s0 _; NumberLiteral s1 _] =>
        match Decimal.of_parts s0 s1 with
        | Some d => with_values input [Number d]
        | None => fresh []
        end
    | EmptyFilter :: rest =>
        match rest with
        | [] => fresh []
        | key_filter :: _ =>
            match values (start key_filter input) with
            | [] => fresh [exception "empty"]
            | key :: _ =>
                match Apply_subscript_loop key (values input) with
                | (pushes, Some exc) => fresh (pushes ++ [exc])
                | (pushes, None) => with_values input pushes
                end
            end
        end
    | Command attribute :: rest =>
        match sensible_strings (attribute :: rest) input with
        | inl command_name =>
            with_values input (Command_run_command command_name input)
        | inr _ => fresh [exception "sensibleString"]
        end
    | function :: rest =>
        match sensible_string function input with
        | inr _ => fresh [exception "sensibleString"]
        | inl function_name =>
            match get_builtin registry function_name (length rest) with
            | None =>
                fresh
                  [ match registry !! function_name with
                    | Some _ => exception "numArgs"
                    | None =>
                        JQSHException (lit "name") (missing_name function_name)
                    end ]
            | Some builtin => call_builtin start builtin rest input
            end
        end
    | [] => input
    end.

(** [Name.assign].  The thread that pulls the input into the output
    pushes every input value before the body runs, and terminates after
    it; so the exception thrown by the body is accepted. *)
Definition Name_assign (name : str) (value_channel input : Channel) : Channel :=
  let var := values value_channel in
  match first_exception var with
  | Some value =>
      mkChannel (values input ++ [value]) (local_namespace input)
        (global_namespace input) (context input)
  | None =>
      mkChannel (values input) (<[name := var]> (local_namespace input))
        (global_namespace input) (context input)
  end.

(** [GlobalVariable.assign], scheduled as [Name_assign] *)
Definition GlobalVariable_assign (attribute : Filter)
    (value_channel input : Channel) : Channel :=
  match sensible_string attribute input with
  | inr _ => with_values input (values input ++ [exception "sensibleString"])
  | inl variable_name =>
      let var := values value_channel in
      match first_exception var with
      | Some value => with_values input (values input ++ [value])
      | None =>
          mkChannel (values input) (local_namespace input)
            (<[variable_name := var]> (global_namespace input)) (context input)
      end
  end.

(** [Assign.run_raw]; [Filter.assign] raises [NotImplementedError] *)
Definition Assign_run_raw (left_operand right_operand : Filter)
    (input : Channel) : Channel :=
  match left_operand with
  | Name name => Name_assign name (start right_operand input) input
  | GlobalVariable attribute =>
      GlobalVariable_assign attribute (start right_operand input) input
  | _ => fresh [JQSHException (lit "assignment") (target_filter left_operand)]
  end.

Definition Comma_run (left_operand right_operand : Filter) (input : Channel)
  : Generated :=
  returns (values (start left_operand input)
             ++ values (start right_operand input)).

(** [s * n] for a sequence and an [int] *)
Definition py_repeat {A} (l : list A) (n : Z) : list A :=
  concat (replicate (Z.to_nat n) l).

(** the body of the loop of [Multiply.run] on a tuple; a Number is a
    [decimal.Decimal] *)
Definition Multiply_combine (left_output right_output : Value) : Value :=
  match left_output, right_output with
  | Number a, Number b => Number (Decimal.mul a b)
  | String s, Number n =>
      if Decimal.is_integer n then String (py_repeat s (Decimal.to_int n))
      else exception "integer"
  | Array l, Number n =>
      if Decimal.is_integer n then Array (py_repeat l (Decimal.to_int n))
      else exception "integer"
  | Number n, String s =>
      if Decimal.is_integer n then String (py_repeat s (Decimal.to_int n))
      else exception "integer"
  | Number n, Array l =>
      if Decimal.is_integer n then Array (py_repeat l (Decimal.to_int n))
      else exception "integer"
  | _, _ => exception "type"
  end.

Definition Multiply_run (left_operand right_operand : Filter) (input : Channel)
  : Generated :=
  returns (combine_outputs Multiply_combine
             <$> Operator_output_pairs left_operand right_operand input).

Definition Pair_run (left_operand right_operand : Filter) (input : Channel)
  : Generated :=
  match values (start right_operand input) with
  | [] => returns [exception "empty"]
  | right_output :: _ =>
      returns ((fun value => Array [value; right_output])
                 <$> values (start left_operand input))
  end.

(** [Semicolon.run_raw] *)
Definition Semicolon_run_raw (left_operand right_operand : Filter)
    (input : Channel) : Channel :=
  let left_output := start left_operand input in
  let right_input := get_namespaces input left_output in
  start right_operand right_input.

Definition Command_run (attribute : Filter) (input : Channel) : Generated :=
  match sensible_string attribute input with
  | inr _ => returns [exception "sensibleString"]
  | inl command_name => returns (Command_run_command [command_name] input)
  end.

(** [GlobalVariable.run_raw] *)
Definition GlobalVariable_run_raw (attribute : Filter) (input : Channel)
  : Channel :=
  match sensible_string attribute input with
  | inr _ => with_values input [exception "sensibleString"]
  | inl variable_name =>
      match global_namespace input !! variable_name with
      | Some var => with_values input var
      | None =>
          with_values input
            [JQSHException (lit "name") (missing_name variable_name)]
      end
  end.

(** [run] of the classes that do not override [run_raw] *)
Definition run (f : Filter) (input : Channel) : Generated :=
  match f with
  | Parens attribute => Parens_run attribute input
  | filter.Array attribute => Array_run attribute input
  | filter.Object attribute => Object_run attribute input
  | Conditional attributes => Conditional_run attributes input
  | Try attributes => Try_run attributes input
  | NumberLiteral _ number => NumberLiteral_run number input
  | StringLiteral text => StringLiteral_run text input
  | Pipe l r => Pipe_run l r input
  | Add l r => Add_run l r input
  | Comma l r => Comma_run l r input
  | Multiply l r => Multiply_run l r input
  | Pair l r => Pair_run l r input
  | Command attribute => Command_run attribute input
  | _ => Filter_run input
  end.

(** [FilterThread.run]: [self.filter.run_raw(input_channel, output_channel)] *)
Definition run_raw (f : Filter) (input : Channel) : Channel :=
  match f with
  | Name name => Name_run_raw name input
  | Apply _ attributes => Apply_run_raw attributes input
  | Assign l r => Assign_run_raw l r input
  | Semicolon l r => Semicolon_run_raw l r input
  | GlobalVariable attribute => GlobalVariable_run_raw attribute input
  | _ => Filter_run_raw (run f) input
  end.

End Engine.

(** [f.start(input_channel)], drained, for an evaluation of bounded depth;
    past the bound nothing is pushed *)
Fixpoint start (popen : list str -> list Value -> ProcessOutcome) (fuel : nat)
    (f : Filter) (input : Channel) : Channel :=
  match fuel with
  | O => fresh []
  | S fuel' => run_raw (start popen fuel') builtin_functions popen f input
  end.



(** the literal of an integer (its text is not used by evaluation) *)
Definition number (z : Z) : Filter := NumberLiteral [] (Decimal.of_Z z).

(** a machine on which no command can be found *)
Definition no_commands (command_name : list str) (stdin : list Value)
  : ProcessOutcome := FileNotFound.

End engine.

(** ** The worker of [Filter.run_raw], thread by thread *)

Module worker.
Import filter values channel generator.

(** What the generator [self.run(input_channel=bridge)] does when it is
    resumed: it returns, raises, yields a value, or asks the bridge for the
    next value ([None] at the end of the stream). *)
Inductive Gen : Type :=
| GReturn
| GRaise (e : PyException)
| GYield (v : Value) (k : Gen)
| GNext (k : option Value -> Gen).

(** the generator that yields the given values and returns *)
Fixpoint yields (vs : list Value) : Gen :=
  match vs with
  | [] => GReturn
  | v :: vs' => GYield v (yields vs')
  end.

(** a generator without [raise] *)
Inductive no_raise : Gen -> Prop :=
| no_raise_return : no_raise GReturn
| no_raise_yield v k : no_raise k -> no_raise (GYield v k)
| no_raise_next k : (forall o, no_raise (k o)) -> no_raise (GNext k).

(** The statement the thread that runs [run_raw] is at.  [threw] records
    that [output_channel.throw(value)] was executed. *)
Inductive MainPC : Type :=
| MLoop                              (* for value in input_channel: *)
| MBridgePush (value : Value)        (* bridge_channel.push(value) *)
| MThrowPush (value : Value)         (* output_channel.throw(value): the push *)
| MThrowTerminate                    (* output_channel.throw(value): the terminate *)
| MBridgeTerminate (threw : bool)    (* bridge_channel.terminate() *)
| MJoin (threw : bool)               (* helper_thread.join() *)
| MTerminate (threw : bool)          (* output_channel.terminate() *)
| MDone (threw : bool)               (* run_raw has returned *)
| MDead.                             (* the push raised: the thread has died *)

(** The statement the helper thread [run_thread] is at.  [caught] records
    that the [except] clause ran to its end. *)
Inductive HelperPC : Type :=
| HRun (g : Gen)                     (* for value in self.run(...): push, break *)
| HCatchPush (e : PyException)       (* except: output_channel.throw(...): the push *)
| HCatchTerminate                    (* except: ... the terminate *)
| HDone (caught : bool)              (* run_thread has returned *)
| HDead.                             (* the push in the except clause raised *)

(** The thread [handle_namespaces] copies the scope metadata and touches no
    value; it is left out, its [join] returns. *)
Record State := mkState {
  input : list Value;           (* the values not yet drawn from the input *)
  main : MainPC;
  helper : HelperPC;
  bridge : list Value;          (* pushed onto the bridge and not yet read *)
  bridge_terminated : bool;
  output : Producer;
  generated : list Value        (* the values the helper pushed from the generator *)
}.

Inductive Thread : Type := Main | Helper.

Definition initial (g : Gen) (vs : list Value) : State :=
  mkState vs MLoop (HRun g) [] false open_producer [].

(** one statement of the thread of [run_raw]; [None] when it waits or has
    ended *)
Definition step_main (s : State) : option State :=
  let '(mkState inp m h br bt out gen) := s in
  match m with
  | MLoop =>
      match inp with
      | [] => Some (mkState inp (MBridgeTerminate false) h br bt out gen)
      | value :: inp' => Some (mkState inp' (MBridgePush value) h br bt out gen)
      end
  | MBridgePush value =>
      Some (mkState inp (if is_exception value then MThrowPush value else MLoop)
              h (br ++ [value]) bt out gen)
  | MThrowPush value =>
      match push out value with
      | Some out' => Some (mkState inp MThrowTerminate h br bt out' gen)
      | None => Some (mkState inp MDead h br bt out gen)
      end
  | MThrowTerminate =>
      Some (mkState inp (MBridgeTerminate true) h br bt (terminate out) gen)
  | MBridgeTerminate threw => Some (mkState inp (MJoin threw) h br true out gen)
  | MJoin threw =>
      match h with
      | HDone _ | HDead => Some (mkState inp (MTerminate threw) h br bt out gen)
      | _ => None
      end
  | MTerminate threw =>
      Some (mkState inp (MDone threw) h br bt (terminate out) gen)
  | MDone _ | MDead => None
  end.

(** one statement of the helper thread; a push that the terminated output
    rejects raises inside the [try] *)
Definition step_helper (s : State) : option State :=
  let '(mkState inp m h br bt out gen) := s in
  match h with
  | HRun GReturn => Some (mkState inp m (HDone false) br bt out gen)
  | HRun (GRaise e) => Some (mkState inp m (HCatchPush e) br bt out gen)
  | HRun (GYield value k) =>
      match push out value with
      | Some out' =>
          Some (mkState inp m
                  (if is_exception value then HDone false else HRun k)
                  br bt out' (gen ++ [value]))
      | None =>
          Some (mkState inp m
                  (HCatchPush (RuntimeError "push on a terminated channel"))
                  br bt out gen)
      end
  | HRun (GNext k) =>
      match br with
      | value :: br' => Some (mkState inp m (HRun (k (Some value))) br' bt out gen)
      | [] =>
          if bt then Some (mkState inp m (HRun (k None)) br bt out gen)
          else None
      end
  | HCatchPush e =>
      match push out (internal e) with
      | Some out' => Some (mkState inp m HCatchTerminate br bt out' gen)
      | None => Some (mkState inp m HDead br bt out gen)
      end
  | HCatchTerminate =>
      Some (mkState inp m (HDone true) br bt (terminate out) gen)
  | HDone _ | HDead => None
  end.

Definition step (t : Thread) (s : State) : option State :=
  match t with
  | Main => step_main s
  | Helper => step_helper s
  end.

(** the states of the runs from [s0], under every interleaving *)
Inductive reachable (s0 : State) : State -> Prop :=
| reachable_refl : reachable s0 s0
| reachable_step s t s' :
    reachable s0 s -> step t s = Some s' -> reachable s0 s'.

(** the run a schedule picks; a thread that cannot move is skipped *)
Fixpoint run_schedule (schedule : list Thread) (s : State) : State :=
  match schedule with
  | [] => s
  | t :: schedule' =>
      run_schedule schedule' (default s (step t s))
  end.


(** [throw] has put its value on the output *)
Definition after_throw_push (m : MainPC) : bool :=
  match m with
  | MThrowTerminate | MBridgeTerminate true | MJoin true | MTerminate true
  | MDone true => true
  | _ => false
  end.

(** the calls of [output_channel.terminate()] the two threads have made *)
Definition terminate_calls_of (m : MainPC) (h : HelperPC) : nat :=
  (match m with
   | MBridgeTerminate true | MJoin true | MTerminate true => 1
   | MDone true => 2
   | MDone false => 1
   | _ => 0
   end)
  + (match h with HDone true => 1 | _ => 0 end).

(** The calls of [terminate] on the output are those the two threads have
    made; the helper is joined before the last one; the thread of [run_raw]
    dies only on an output the [except] clause has terminated. *)
Definition worker_invariant (s : State) : Prop :=
  terminate_calls (output s) = terminate_calls_of (main s) (helper s)
  /\ (match main s with
      | MJoin _ | MTerminate _ | MDone _ => bridge_terminated s = true
      | _ => True
      end)
  /\ (match main s with
      | MTerminate _ | MDone _ =>
          match helper s with HDone _ | HDead => True | _ => False end
      | MDead => helper s = HDone true
      | _ => True
      end).


(** Where the loop over an input [before ++ e :: after] is, [e] being the
    first exception: it has drawn no value of [after], and once [throw] has
    pushed, [e] is on the output. *)
Definition forwarding_invariant (before : list Value) (e : Value)
    (after : list Value) (s : State) : Prop :=
  match main s with
  | MLoop => exists k, input s = drop k before ++ e :: after
  | MBridgePush value =>
      (is_exception value = false
       /\ exists k, input s = drop k before ++ e :: after)
      \/ (value = e /\ input s = after)
  | MThrowPush value => value = e /\ input s = after
  | MDead => input s = after
  | m => after_throw_push m = true /\ input s = after /\ e ∈ pushed (output s)
  end.

(** The helper pushes nothing of the generator after an exception. *)
Definition generated_invariant (s : State) : Prop :=
  until_exception (generated s) = generated s
  /\ match helper s with
     | HRun _ => Forall (fun v => is_exception v = false) (generated s)
     | _ => True
     end.

(** A generator without [raise] reaches the [except] clause only through a
    push the terminated output rejects. *)
Definition no_raise_invariant (s : State) : Prop :=
  match helper s with
  | HRun g => no_raise g
  | HCatchPush _ => is_terminated (output s) = true
  | HCatchTerminate | HDone true => False
  | _ => True
  end.

(** On an input without exception the loop never throws; a generator that
    raises at once has its exception pushed as the only value. *)
Definition raising_invariant (e0 : PyException) (s : State) : Prop :=
  Forall (fun v => is_exception v = false) (input s)
  /\ match main s with
     | MLoop | MBridgeTerminate false | MJoin false | MTerminate false
     | MDone false => True
     | MBridgePush value => is_exception value = false
     | _ => False
     end
  /\ match helper s with
     | HRun g => g = GRaise e0 /\ pushed (output s) = []
     | HCatchPush e => e = e0 /\ pushed (output s) = []
     | HCatchTerminate | HDone true => pushed (output s) = [internal e0]
     | _ => False
     end.

End worker.

(** ** The tokenizer and the parser ([jqsh/parser.py]) *)

Module parser.
Import filter.

Inductive TokenType : Type :=
| close_array
| close_paren
| comment
| illegal
| open_array
| open_paren
| trailing_whitespace.

Definition TokenType_eqb (a b : TokenType) : bool :=
  match a, b with
  | close_array, close_array | close_paren, close_paren
  | comment, comment | illegal, illegal | open_array, open_array
  | open_paren, open_paren | trailing_whitespace, trailing_whitespace => true
  | _, _ => false
  end.

(** [Token(token_type, token_string=None, text=None)] *)
Record Token := mkToken {
  token_type : TokenType;
  token_string : option str;
  token_text : option str
}.

(** [matching_parens]: opening paren to the associated closing paren *)
Definition matching_parens (t : TokenType) : option TokenType :=
  match t with
  | open_array => Some close_array
  | open_paren => Some close_paren
  | _ => None
  end.

(** [token.type in matching_parens.values()] *)
Definition is_closing_paren (t : TokenType) : bool :=
  match t with close_array | close_paren => true | _ => false end.

(** [paren_filters] *)
Definition paren_filters (t : TokenType) : option (Filter -> Filter) :=
  match t with
  | open_array => Some Array
  | open_paren => Some Parens
  | _ => None
  end.

(** [symbols], in insertion order.  Every symbol has length one, so the
    stable [sorted(..., key=-len)] of the source leaves this order. *)
Definition symbols : list (str * TokenType) :=
  [ (lit "(", open_paren); (lit ")", close_paren);
    (lit "[", open_array); (lit "]", close_array) ].

Definition sorted_symbols : list (str * TokenType) := symbols.

(** [string.whitespace]: space, tab, newline, return, VT, FF *)
Definition whitespace : str := [32; 9; 10; 13; 11; 12]%N.

(** the byte-order mark U+FEFF *)
Definition bom : N := 65279%N.

(** the inner [while] of the comment branch: reads up to, not including,
    the next newline; returns [(comment, rest_string)] *)
Fixpoint comment_loop (rest_string comment : str) : str * str :=
  match rest_string with
  | [] => (comment, [])
  | c :: rest' =>
      if (c =? 10)%N then (comment, rest_string)
      else comment_loop rest' (comment ++ [c])
  end.

(** the [while len(rest_string)] loop of [tokenize] and the statement after
    it; one unit of fuel per iteration, [None] when it runs out *)
Fixpoint tokenize_loop (fuel : nat) (rest_string whitespace_prefix : str)
  : option (list Token) :=
  match fuel with
  | O => None
  | S fuel' =>
      match rest_string with
      | [] =>
          Some (if bool_decide (whitespace_prefix = []) then []
                else [mkToken trailing_whitespace (Some whitespace_prefix) None])
      | c :: rest' =>
          if char_in c whitespace then
            tokenize_loop fuel' rest' (whitespace_prefix ++ [c])
          else if (c =? 35)%N then
            let '(comment_text, rest'') := comment_loop rest' [] in
            cons (mkToken comment
                    (Some (whitespace_prefix ++ lit "#" ++ comment_text))
                    (Some comment_text))
              <$> tokenize_loop fuel' rest'' []
          else if existsb (fun sym => startswith rest_string sym.1) symbols then
            match find (fun sym => startswith rest_string sym.1) sorted_symbols with
            | Some (symbol, ty) =>
                cons (mkToken ty
                        (Some (whitespace_prefix ++ take (length symbol) rest_string))
                        None)
                  <$> tokenize_loop fuel' (drop (length symbol) rest_string) []
            | None => tokenize_loop fuel' rest_string whitespace_prefix
            end
          else
            Some [mkToken illegal (Some (whitespace_prefix ++ rest_string))
                    (Some rest_string)]
      end
  end.

(** [tokenize(jqsh_string)] for a [str] argument, its tokens in order *)
Definition tokenize (jqsh_string : str) : option (list Token) :=
  match jqsh_string with
  | c :: rest' =>
      if (c =? bom)%N then tokenize_loop (S (length rest')) rest' [c]
      else tokenize_loop (S (length jqsh_string)) jqsh_string []
  | [] => tokenize_loop 1 [] []
  end.

(** [''.join(token.string for token in tokens)]; [None] when a token has no
    string *)
Definition join_token_strings (tokens : list Token) : option str :=
  match mapM token_string tokens with
  | Some strings => Some (concat strings)
  | None => None
  end.

(** The elements of the list [parse] works on: tokens, and the filters
    already built from them. *)
Inductive Item : Type :=
| IToken (t : Token)
| IFilter (f : Filter).

Inductive ParseResult : Type :=
| Parsed (f : Filter)
| SyntaxError (msg : string)
| AttributeError
| TypeError
| IndexError
| OutOfFuel.

(** the state of the reverse loop over the token list *)
Record ParenState := mkParenState {
  tokens : list Item;
  paren_balance : Z;
  paren_start : option nat
}.

(** [tokens[i:j]] for [0 <= i], [0 <= j] *)
Definition slice {A} (i j : nat) (l : list A) : list A :=
  take (j - i) (drop i l).

(** one iteration of [for i, token in reversed(list(enumerate(tokens)))] *)
Definition paren_step (parse : list Item -> ParseResult)
    (st : ParenState) (i : nat) (item : Item)
  : ParenState + ParseResult :=
  match item with
  | IFilter _ => inl st
  | IToken token =>
      if is_closing_paren (token_type token) then
        inl (mkParenState (tokens st) (paren_balance st + 1)
               (if (paren_balance st =? 0)%Z then Some i else paren_start st))
      else
        match matching_parens (token_type token), paren_filters (token_type token) with
        | Some closing, Some paren_filter =>
            let balance := (paren_balance st - 1)%Z in
            if (balance <? 0)%Z then
              inr (SyntaxError "too many opening parens")
            else if (balance =? 0)%Z then
              match paren_start st with
              | None => inr TypeError
              | Some start =>
                  match tokens st !! start with
                  | None => inr IndexError
                  | Some (IFilter _) => inr AttributeError
                  | Some (IToken closer) =>
                      if TokenType_eqb closing (token_type closer) then
                        match parse (slice (i + 1) start (tokens st)) with
                        | Parsed inner =>
                            inl (mkParenState
                                   (take i (tokens st)
                                      ++ [IFilter (paren_filter inner)]
                                      ++ drop (S start) (tokens st))
                                   balance None)
                        | err => inr err
                        end
                      else
                        inr (SyntaxError "opening paren does not match closing paren")
                  end
              end
            else inl (mkParenState (tokens st) balance (paren_start st))
        | _, _ => inl st
        end
  end.

Fixpoint paren_loop (parse : list Item -> ParseResult)
    (items : list (nat * Item)) (st : ParenState)
  : ParenState + ParseResult :=
  match items with
  | [] => inl st
  | (i, item) :: items' =>
      match paren_step parse st i item with
      | inl st' => paren_loop parse items' st'
      | inr err => inr err
      end
  end.

(** [isinstance(token, Filter) or token.type is not TokenType.comment] *)
Definition not_comment (item : Item) : bool :=
  match item with
  | IFilter _ => true
  | IToken t => negb (TokenType_eqb (token_type t) comment)
  end.

(** the loop raising on the first illegal token; a filter in the list has
    no [type] attribute *)
Fixpoint check_illegal (items : list Item) : option ParseResult :=
  match items with
  | [] => None
  | IFilter _ :: _ => Some AttributeError
  | IToken t :: items' =>
      if TokenType_eqb (token_type t) illegal
      then Some (SyntaxError "illegal character")
      else check_illegal items'
  end.

(** the trailing-whitespace step: [inr] is an early [return] (or an error),
    [inl] the token list to go on with *)
Definition merge_trailing_whitespace (items : list Item)
  : list Item + ParseResult :=
  match reverse items with
  | IToken last :: before =>
      if TokenType_eqb (token_type last) trailing_whitespace then
        match before with
        | [] => inr (Parsed EmptyFilter)
        | IFilter _ :: _ => inr AttributeError
        | IToken t :: before' =>
            match token_string t, token_string last with
            | Some s, Some s' =>
                inl (reverse
                       (IToken (mkToken (token_type t) (Some (s ++ s')) (token_text t))
                          :: before'))
            | _, _ => inr TypeError
            end
        end
      else inl items
  | _ => inl items
  end.

(** the body of [parse] on a token list; [parse] is the recursive call *)
Definition parse_body (parse : list Item -> ParseResult) (items : list Item)
  : ParseResult :=
  let items := List.filter not_comment items in
  match items with
  | [] => Parsed EmptyFilter
  | _ =>
      match check_illegal items with
      | Some err => err
      | None =>
          match merge_trailing_whitespace items with
          | inr result => result
          | inl items =>
              match paren_loop parse (reverse (imap pair items))
                      (mkParenState items 0 None) with
              | inr err => err
              | inl st =>
                  if negb (paren_balance st =? 0)%Z then
                    SyntaxError "mismatched parens"
                  else
                    match tokens st with
                    | [IFilter f] => Parsed f
                    | _ => SyntaxError "could not parse token list"
                    end
              end
          end
      end
  end.

Fixpoint parse_fuel (fuel : nat) (items : list Item) : ParseResult :=
  match fuel with
  | O => OutOfFuel
  | S fuel' => parse_body (parse_fuel fuel') items
  end.

(** [parse(tokens)] for a list; every recursive call is on a strictly
    shorter list *)
Definition parse_tokens (items : list Item) : ParseResult :=
  parse_fuel (S (length items)) items.

(** [parse(tokens)] for a [str] *)
Definition parse (jqsh_string : str) : ParseResult :=
  match tokenize jqsh_string with
  | Some toks => parse_tokens (IToken <$> toks)
  | None => OutOfFuel
  end.

(** the filter trees made of the empty filter, parens and array literals *)
Fixpoint bracket_tree (f : Filter) : bool :=
  match f with
  | EmptyFilter => true
  | Parens a | Array a => bracket_tree a
  | _ => false
  end.

(** the token a bracket character is read as *)
Definition bracket_token (ty : TokenType) (c : N) : Token :=
  mkToken ty (Some [c]) None.

Definition bracket_char_token (c : N) : option Token :=
  if (c =? 40)%N then Some (bracket_token open_paren 40)
  else if (c =? 41)%N then Some (bracket_token close_paren 41)
  else if (c =? 91)%N then Some (bracket_token open_array 91)
  else if (c =? 93)%N then Some (bracket_token close_array 93)
  else None.

Definition is_bracket_item (item : Item) : bool :=
  match item with
  | IToken t =>
      match token_type t with
      | open_paren | close_paren | open_array | close_array => true
      | _ => false
      end
  | IFilter _ => false
  end.

(** the tokens of the textual form of a bracket tree *)
Fixpoint bracket_tokens (f : Filter) : list Token :=
  match f with
  | Parens a =>
      bracket_token open_paren 40 :: bracket_tokens a
        ++ [bracket_token close_paren 41]
  | Array a =>
      bracket_token open_array 91 :: bracket_tokens a
        ++ [bracket_token close_array 93]
  | _ => []
  end.

(** an element that is a token, or a filter made of parens and arrays *)
Definition bracket_item (item : Item) : bool :=
  match item with
  | IToken _ => true
  | IFilter f => bracket_tree f
  end.

(** the token types that end the token sequence *)
Definition is_final_type (t : TokenType) : bool :=
  match t with illegal | trailing_whitespace => true | _ => false end.

End parser.

(* ================================================================= *)
(** * Theorems *)

Section ParserFacts.
Import filter parser.

Example tokenize_example :
  join_token_strings <$> tokenize (lit " ( # c") = Some (Some (lit " ( # c")).
Proof. reflexivity. Qed.

Example parse_example :
  parse (lit "([ ]) ") = Parsed (Parens (Array EmptyFilter)).
Proof. reflexivity. Qed.

End ParserFacts.

Section TokenizeFacts.
Import filter parser.

Lemma comment_loop_spec rest_string :
  forall comment_acc comment_text rest',
    comment_loop rest_string comment_acc = (comment_text, rest') ->
    comment_text ++ rest' = comment_acc ++ rest_string
    /\ length rest' <= length rest_string.
Proof.
  induction rest_string as [|c rest IH]; simpl; intros acc txt r' H.
  - inversion H; subst. split; [done | simpl; lia].
  - destruct (c =? 10)%N.
    + inversion H; subst. split; [done | simpl; lia].
    + apply IH in H as [H1 H2]. rewrite H1, <- app_assoc. split; [done | lia].
Qed.

Lemma join_token_strings_cons ty s text toks rest :
  join_token_strings toks = Some rest ->
  join_token_strings (mkToken ty (Some s) text :: toks) = Some (s ++ rest).
Proof.
  unfold join_token_strings. simpl.
  destruct (mapM token_string toks) as [strings|]; simpl; [|done].
  by intros [= <-].
Qed.

Lemma find_symbol c rest :
  existsb (fun sym => startswith (c :: rest) sym.1) symbols = true ->
  exists ty,
    find (fun sym => startswith (c :: rest) sym.1) sorted_symbols
    = Some ([c], ty).
Proof.
  unfold sorted_symbols.
  change symbols with
    [([40%N], open_paren); ([41%N], close_paren);
     ([91%N], open_array); ([93%N], close_array)].
  cbn [existsb find startswith fst]. rewrite !andb_true_r.
  destruct (N.eqb_spec c 40) as [->|_]; [by eexists|].
  destruct (N.eqb_spec c 41) as [->|_]; [by eexists|].
  destruct (N.eqb_spec c 91) as [->|_]; [by eexists|].
  destruct (N.eqb_spec c 93) as [->|_]; [by eexists|].
  done.
Qed.

Lemma tokenize_loop_spec fuel :
  forall rest_string whitespace_prefix,
    length rest_string < fuel ->
    exists toks,
      tokenize_loop fuel rest_string whitespace_prefix = Some toks
      /\ join_token_strings toks = Some (whitespace_prefix ++ rest_string).
Proof.
  induction fuel as [|fuel IH]; intros rest ws Hlen; [lia|].
  destruct rest as [|c rest']; cbn [tokenize_loop].
  - case_bool_decide as Hws.
    + subst ws. by exists [].
    + eexists; split; [done|]. unfold join_token_strings; simpl.
      by rewrite !app_nil_r.
  - cbn [length] in Hlen.
    destruct (char_in c whitespace).
    { destruct (IH rest' (ws ++ [c])) as (toks & -> & Hj); [lia|].
      exists toks. split; [done|]. by rewrite Hj, <- app_assoc. }
    destruct (N.eqb_spec c 35) as [->|_].
    { destruct (comment_loop rest' []) as [txt r'] eqn:Hc.
      apply comment_loop_spec in Hc as [Hc1 Hc2]. cbn [app] in Hc1.
      destruct (IH r' []) as (toks & -> & Hj); [lia|].
      eexists; split; [done|].
      erewrite join_token_strings_cons by exact Hj.
      cbn [app]. rewrite <- !app_assoc. do 2 f_equal.
      change (lit "#") with [35%N]. cbn [app]. by rewrite Hc1. }
    destruct (existsb _ symbols) eqn:Hsym.
    { apply find_symbol in Hsym as [ty ->]. cbn [length take drop].
      rewrite take_0, drop_0.
      destruct (IH rest' []) as (toks & -> & Hj); [lia|].
      eexists; split; [done|].
      erewrite join_token_strings_cons by exact Hj.
      cbn [app]. by rewrite <- app_assoc. }
    eexists; split; [done|]. unfold join_token_strings; simpl.
    by rewrite app_nil_r.
Qed.

(** C10.  For every input string, [tokenize] returns (it never fails and
    never runs out of steps), and the concatenation of the tokens' strings,
    in order, is the input. *)
Theorem tokenize_preserves_text (jqsh_string : str) :
  exists toks,
    tokenize jqsh_string = Some toks
    /\ join_token_strings toks = Some jqsh_string.
Proof.
  unfold tokenize. destruct jqsh_string as [|c rest].
  - by exists [].
  - destruct (c =? bom)%N.
    + destruct (tokenize_loop_spec (S (length rest)) rest [c])
        as (toks & H1 & H2); [lia|]. by exists toks.
    + destruct (tokenize_loop_spec (S (length (c :: rest))) (c :: rest) [])
        as (toks & H1 & H2); [lia|]. by exists toks.
Qed.

(** An unrecognised character: the rest of the text becomes one illegal
    token that carries it. *)
Example tokenize_illegal :
  tokenize (lit "( 1)")
  = Some [mkToken open_paren (Some (lit "(")) None;
          mkToken illegal (Some (lit " 1)")) (Some (lit "1)"))].
Proof. reflexivity. Qed.

End TokenizeFacts.

Section ParseFacts.
Import filter parser.

Lemma tokenize_loop_bracket_step c t fuel rest :
  bracket_char_token c = Some t ->
  tokenize_loop (S fuel) (c :: rest) [] = cons t <$> tokenize_loop fuel rest [].
Proof.
  unfold bracket_char_token.
  destruct (N.eqb_spec c 40) as [->|_]; [by intros [= <-]|].
  destruct (N.eqb_spec c 41) as [->|_]; [by intros [= <-]|].
  destruct (N.eqb_spec c 91) as [->|_]; [by intros [= <-]|].
  destruct (N.eqb_spec c 93) as [->|_]; [by intros [= <-]|].
  done.
Qed.

Lemma tokenize_loop_brackets s toks :
  Forall2 (fun c t => bracket_char_token c = Some t) s toks ->
  forall fuel, length s < fuel -> tokenize_loop fuel s [] = Some toks.
Proof.
  induction 1 as [|c t s toks Hc _ IH]; intros fuel Hlen.
  - destruct fuel; [lia | done].
  - destruct fuel as [|fuel]; [lia|]. cbn [length] in Hlen.
    rewrite (tokenize_loop_bracket_step _ _ _ _ Hc), IH by lia. done.
Qed.

Lemma bracket_tree_chars f :
  bracket_tree f = true ->
  Forall2 (fun c t => bracket_char_token c = Some t)
    (Filter_str f) (bracket_tokens f).
Proof.
  induction f; try discriminate; cbn [bracket_tree Filter_str bracket_tokens];
    intros Hf.
  - constructor.
  - change (lit "(") with [40%N]. change (lit ")") with [41%N].
    cbn [app]. constructor; [done|].
    apply Forall2_app; [auto|]. by constructor.
  - change (lit "[") with [91%N]. change (lit "]") with [93%N].
    cbn [app]. constructor; [done|].
    apply Forall2_app; [auto|]. by constructor.
Qed.

Lemma tokenize_bracket_tree f :
  bracket_tree f = true -> tokenize (Filter_str f) = Some (bracket_tokens f).
Proof.
  intros Hf. pose proof (bracket_tree_chars f Hf) as Hc.
  unfold tokenize. destruct Hc as [|c t s toks Hc Hrest]; [done|].
  assert ((c =? bom)%N = false) as ->.
  { unfold bracket_char_token in Hc. apply N.eqb_neq. intros ->.
    discriminate. }
  apply tokenize_loop_brackets; [by constructor | lia].
Qed.

Lemma paren_loop_app parse l1 l2 st :
  paren_loop parse (l1 ++ l2) st
  = match paren_loop parse l1 st with
    | inl st' => paren_loop parse l2 st'
    | inr err => inr err
    end.
Proof.
  revert st. induction l1 as [|[i item] l1 IH]; intros st; [done|].
  cbn [app paren_loop]. destruct (paren_step parse st i item); [apply IH|done].
Qed.

Lemma reverse_imap_brackets {A B} (f : nat -> A -> B) x mid y :
  reverse (imap f (x :: mid ++ [y]))
  = f (S (length mid)) y :: reverse (imap (f ∘ S) mid) ++ [f 0 x].
Proof.
  rewrite imap_cons, reverse_cons, imap_app, reverse_app. cbn [imap reverse].
  unfold compose. by rewrite Nat.add_0_r.
Qed.

Lemma snd_imap_pair {A} (g : nat -> nat) (l : list A) :
  (imap (fun i x => (g i, x)) l).*2 = l.
Proof.
  revert g. induction l as [|x l IH]; intros g; [done|].
  rewrite imap_cons, fmap_cons. cbn [snd]. f_equal.
  apply (IH (g ∘ S)).
Qed.

(** Inside an open group the loop only counts: a balanced run of tokens,
    read backwards, leaves the state as it was. *)
Lemma paren_loop_balanced a :
  bracket_tree a = true ->
  forall parse (l : list (nat * Item)) toks balance start,
    l.*2 = reverse (IToken <$> bracket_tokens a) ->
    (1 <= balance)%Z ->
    paren_loop parse l (mkParenState toks balance start)
    = inl (mkParenState toks balance start).
Proof.
  induction a; try discriminate; cbn [bracket_tree bracket_tokens];
    intros Ha parse l toks balance start Hl Hbal.
  - destruct l; [done | discriminate].
  - rewrite fmap_cons, fmap_app, reverse_cons, reverse_app in Hl.
    cbn [fmap list_fmap reverse rev_append app] in Hl.
    destruct l as [|[i x] l]; [discriminate|].
    rewrite fmap_cons in Hl. cbn [snd] in Hl.
    injection Hl as -> Hl.
    apply fmap_app_inv in Hl as (mid & last & Hmid & Hlast & ->).
    destruct last as [|[j y] [|? ?]]; try discriminate.
    injection Hlast as <-.
    cbn [paren_loop paren_step token_type bracket_token is_closing_paren
           paren_balance tokens paren_start].
    assert ((balance =? 0)%Z = false) as -> by lia.
    rewrite paren_loop_app, IHa by (auto || lia).
    cbn [paren_loop paren_step token_type bracket_token is_closing_paren
           matching_parens paren_filters paren_balance tokens paren_start].
    assert ((balance + 1 - 1 <? 0)%Z = false) as -> by lia.
    assert ((balance + 1 - 1 =? 0)%Z = false) as -> by lia.
    do 2 f_equal; lia.
  - rewrite fmap_cons, fmap_app, reverse_cons, reverse_app in Hl.
    cbn [fmap list_fmap reverse rev_append app] in Hl.
    destruct l as [|[i x] l]; [discriminate|].
    rewrite fmap_cons in Hl. cbn [snd] in Hl.
    injection Hl as -> Hl.
    apply fmap_app_inv in Hl as (mid & last & Hmid & Hlast & ->).
    destruct last as [|[j y] [|? ?]]; try discriminate.
    injection Hlast as <-.
    cbn [paren_loop paren_step token_type bracket_token is_closing_paren
           paren_balance tokens paren_start].
    assert ((balance =? 0)%Z = false) as -> by lia.
    rewrite paren_loop_app, IHa by (auto || lia).
    cbn [paren_loop paren_step token_type bracket_token is_closing_paren
           matching_parens paren_filters paren_balance tokens paren_start].
    assert ((balance + 1 - 1 <? 0)%Z = false) as -> by lia.
    assert ((balance + 1 - 1 =? 0)%Z = false) as -> by lia.
    do 2 f_equal; lia.
Qed.

Lemma bracket_items_Forall a :
  Forall (fun item => is_bracket_item item = true) (IToken <$> bracket_tokens a).
Proof.
  induction a; cbn [bracket_tokens]; try by constructor.
  all: rewrite fmap_cons, fmap_app; constructor; [done|];
    apply Forall_app; split; [done | by repeat constructor].
Qed.

Lemma filter_not_comment_brackets l :
  Forall (fun item => is_bracket_item item = true) l ->
  List.filter not_comment l = l.
Proof.
  induction 1 as [|[t|g] l Hx _ IH]; cbn [List.filter not_comment]; [done| |done].
  rewrite IH. unfold is_bracket_item in Hx. by destruct (token_type t).
Qed.

Lemma check_illegal_brackets l :
  Forall (fun item => is_bracket_item item = true) l ->
  check_illegal l = None.
Proof.
  induction 1 as [|[t|g] l Hx _ IH]; cbn [check_illegal]; [done| |done].
  rewrite IH. unfold is_bracket_item in Hx. by destruct (token_type t).
Qed.

Lemma merge_trailing_whitespace_brackets l :
  Forall (fun item => is_bracket_item item = true) l ->
  merge_trailing_whitespace l = inl l.
Proof.
  intros Hl. unfold merge_trailing_whitespace.
  destruct (reverse l) as [|[t|g] before] eqn:Hrev; [done| |done].
  assert (is_bracket_item (IToken t) = true) as Ht.
  { apply (proj1 (Forall_forall _ _) Hl).
    apply elem_of_reverse. rewrite Hrev. left. }
  unfold is_bracket_item in Ht. by destruct (token_type t).
Qed.

Lemma parse_body_brackets parse l :
  l <> [] ->
  Forall (fun item => is_bracket_item item = true) l ->
  parse_body parse l
  = match paren_loop parse (reverse (imap pair l)) (mkParenState l 0 None) with
    | inr err => err
    | inl st =>
        if negb (paren_balance st =? 0)%Z then SyntaxError "mismatched parens"
        else
          match tokens st with
          | [IFilter f] => Parsed f
          | _ => SyntaxError "could not parse token list"
          end
    end.
Proof.
  intros Hne Hl. unfold parse_body.
  rewrite filter_not_comment_brackets, check_illegal_brackets,
    merge_trailing_whitespace_brackets by done.
  by destruct l.
Qed.

(** parsing one bracket group whose inside parses to [a] *)
Lemma parse_body_group parse opening closing o c wrap mid a :
  matching_parens opening = Some closing ->
  paren_filters opening = Some wrap ->
  is_closing_paren closing = true ->
  is_closing_paren opening = false ->
  (forall parse' (l : list (nat * Item)) toks balance start,
      l.*2 = reverse mid -> (1 <= balance)%Z ->
      paren_loop parse' l (mkParenState toks balance start)
      = inl (mkParenState toks balance start)) ->
  Forall (fun item => is_bracket_item item = true) mid ->
  parse mid = Parsed a ->
  parse_body parse
    (IToken (bracket_token opening o) :: mid ++ [IToken (bracket_token closing c)])
  = Parsed (wrap a).
Proof.
  intros Hmatch Hwrap Hclose Hopen Hbalanced Hmid Hparse.
  rewrite parse_body_brackets; [|done|].
  2:{ constructor; [by destruct opening|].
      apply Forall_app; split; [done|]. repeat constructor.
      by destruct closing. }
  rewrite reverse_imap_brackets.
  cbn [paren_loop paren_step token_type bracket_token paren_balance
         tokens paren_start].
  rewrite Hclose. cbn [Z.eqb Z.add].
  rewrite paren_loop_app, Hbalanced; [| |lia].
  2:{ rewrite fmap_reverse. f_equal. apply (snd_imap_pair S). }
  cbn [paren_loop paren_step token_type bracket_token paren_balance
         tokens paren_start].
  rewrite Hopen, Hmatch, Hwrap.
  change (0 + 1 - 1 <? 0)%Z with false. change (0 + 1 - 1 =? 0)%Z with true.
  change (0 + 1 - 1)%Z with 0%Z.
  rewrite lookup_cons_ne_0 by lia. cbn [Nat.pred].
  rewrite list_lookup_middle by done. cbn [token_type bracket_token].
  assert (TokenType_eqb closing closing = true) as -> by by destruct closing.
  unfold slice. cbn [Nat.add drop Nat.sub].
  rewrite Nat.sub_0_r, drop_0, take_app_length, Hparse.
  rewrite (drop_ge (mid ++ _)) by (rewrite length_app; cbn [length]; lia).
  done.
Qed.

Lemma parse_fuel_bracket_tree a :
  bracket_tree a = true ->
  forall fuel,
    length (bracket_tokens a) < fuel ->
    parse_fuel fuel (IToken <$> bracket_tokens a) = Parsed a.
Proof.
  induction a; try discriminate; cbn [bracket_tree bracket_tokens];
    intros Ha fuel Hlen.
  - destruct fuel; [lia | done].
  - destruct fuel as [|fuel]; [lia|]. cbn [parse_fuel].
    rewrite length_cons, length_app in Hlen. cbn [length] in Hlen.
    rewrite fmap_cons, fmap_app. cbn [fmap list_fmap].
    apply (parse_body_group _ open_paren close_paren); try done.
    + intros. by apply (paren_loop_balanced a).
    + apply bracket_items_Forall.
    + apply IHa; [done | lia].
  - destruct fuel as [|fuel]; [lia|]. cbn [parse_fuel].
    rewrite length_cons, length_app in Hlen. cbn [length] in Hlen.
    rewrite fmap_cons, fmap_app. cbn [fmap list_fmap].
    apply (parse_body_group _ open_array close_array); try done.
    + intros. by apply (paren_loop_balanced a).
    + apply bracket_items_Forall.
    + apply IHa; [done | lia].
Qed.

(** C9, as the parser has it.  A filter tree made of the empty filter,
    parens and array literals is rendered to a text that parses, and parses
    back to the very same tree (hence to a tree of the same evaluation
    behaviour). *)
Theorem parse_str_bracket_tree (f : Filter) :
  bracket_tree f = true -> parse (Filter_str f) = Parsed f.
Proof.
  intros Hf. unfold parse, parse_tokens.
  rewrite tokenize_bracket_tree by done.
  apply parse_fuel_bracket_tree; [done|]. rewrite length_fmap. lia.
Qed.

Lemma parse_str_bracket_tree_witness :
  bracket_tree (Parens (Array EmptyFilter)) = true
  /\ parse (Filter_str (Parens (Array EmptyFilter)))
     = Parsed (Parens (Array EmptyFilter)).
Proof.
  split; [reflexivity | apply parse_str_bracket_tree; reflexivity].
Defined.

(** C9 as stated fails: the textual form of a number literal does not
    parse, the tokenizer knows no digit. *)
Lemma parse_str_number_literal_fails :
  ~ (forall f : Filter, exists g, parse (Filter_str f) = Parsed g).
Proof.
  intros H.
  destruct (H (NumberLiteral (lit "1") (Decimal.of_Z 1))) as [g Hg].
  vm_compute in Hg. discriminate.
Qed.

End ParseFacts.

Section ScenarioFacts.
Import filter values channel generator functions engine.

(** the scenarios of the specification, on a machine without commands *)
Example scenario_add :
  values (start no_commands 3 (Add (number 1) (number 2)) empty_channel)
  = [Number (Decimal.of_Z 3)].
Proof. reflexivity. Qed.

Example scenario_array :
  values (start no_commands 4
            (filter.Array (Comma (number 1) (Comma (number 2) (number 3))))
            empty_channel)
  = [Array [Number (Decimal.of_Z 1); Number (Decimal.of_Z 2);
            Number (Decimal.of_Z 3)]].
Proof. reflexivity. Qed.

Example scenario_multiply :
  values (start no_commands 3
            (Multiply (StringLiteral (lit "ab")) (number 2)) empty_channel)
  = [String (lit "abab")].
Proof. reflexivity. Qed.

Example scenario_empty :
  values (start no_commands 3 (Name (lit "empty")) empty_channel) = [].
Proof. reflexivity. Qed.

Example scenario_unbound_name :
  values (start no_commands 3 (Name (lit "foo")) empty_channel)
  = [JQSHException (lit "name") (missing_name (lit "foo"))].
Proof. vm_compute. reflexivity. Qed.

Example scenario_assign_replay :
  values (start no_commands 6
            (Semicolon (Assign (Name (lit "x")) (Comma (number 1) (number 2)))
               (Name (lit "x")))
            empty_channel)
  = [Number (Decimal.of_Z 1); Number (Decimal.of_Z 2)].
Proof. vm_compute. reflexivity. Qed.

End ScenarioFacts.

Section OperatorFacts.
Import filter values channel generator functions engine.

Lemma output_pairs_lookup (left_output right_output : list Value) i :
  left_output <> [] -> right_output <> [] ->
  exists a b,
    left_output !! (i mod length left_output) = Some a
    /\ right_output !! (i mod length right_output) = Some b.
Proof.
  intros Hl Hr.
  destruct (lookup_lt_is_Some_2 left_output (i mod length left_output)) as [a Ha].
  { apply Nat.mod_upper_bound. by destruct left_output. }
  destruct (lookup_lt_is_Some_2 right_output (i mod length right_output)) as [b Hb].
  { apply Nat.mod_upper_bound. by destruct right_output. }
  eauto.
Qed.

Lemma output_pairs_combined start combine l r input :
  let left_output := values (start l input) in
  let right_output := values (start r input) in
  let results := combine_outputs combine <$> Operator_output_pairs start l r input in
  (left_output = [] -> results = right_output)
  /\ (right_output = [] -> results = left_output)
  /\ (left_output <> [] -> right_output <> [] ->
      length results = max (length left_output) (length right_output)
      /\ forall i, i < max (length left_output) (length right_output) ->
           exists a b,
             left_output !! (i mod length left_output) = Some a
             /\ right_output !! (i mod length right_output) = Some b
             /\ results !! i = Some (combine a b)).
Proof.
  intros left_output right_output results. subst results.
  unfold Operator_output_pairs.
  fold left_output right_output.
  assert (Hsingle : forall vs : list Value,
             combine_outputs combine <$> (Single <$> vs) = vs).
  { intros vs. rewrite <- list_fmap_compose. apply list_fmap_id. }
  split; [|split].
  - intros ->. cbn [length]. repeat case_bool_decide; try done.
    all: destruct right_output; cbn [length] in *; naive_solver.
  - intros ->. cbn [length]. repeat case_bool_decide; try done.
    all: destruct left_output; cbn [length] in *; naive_solver.
  - intros Hl Hr.
    assert (length left_output <> 0) by by destruct left_output.
    assert (length right_output <> 0) by by destruct right_output.
    repeat case_bool_decide; try naive_solver.
    split; [by rewrite !length_fmap, length_seq|].
    intros i Hi.
    destruct (output_pairs_lookup left_output right_output i Hl Hr)
      as (a & b & Ha & Hb).
    exists a, b. split; [done|]. split; [done|].
    rewrite !list_lookup_fmap, lookup_seq_lt by done.
    cbn. by rewrite Ha, Hb.
Qed.

(** C3.  Add and Multiply start both operands on (a fork of) the input and
    drain them; an empty side lets the other side through unchanged (so
    two empty sides give nothing); two non-empty sides of lengths m and n
    give max(m, n) results, result i combining left[i mod m] with
    right[i mod n]. *)
Theorem Add_Multiply_output_pairs start l r input :
  let left_output := values (start l input) in
  let right_output := values (start r input) in
  let sums := yielded (Add_run start l r input) in
  let products := yielded (Multiply_run start l r input) in
  (left_output = [] -> right_output = [] -> sums = [] /\ products = [])
  /\ (left_output = [] -> sums = right_output /\ products = right_output)
  /\ (right_output = [] -> sums = left_output /\ products = left_output)
  /\ (left_output <> [] -> right_output <> [] ->
      length sums = max (length left_output) (length right_output)
      /\ length products = max (length left_output) (length right_output)
      /\ forall i, i < max (length left_output) (length right_output) ->
           exists a b,
             left_output !! (i mod length left_output) = Some a
             /\ right_output !! (i mod length right_output) = Some b
             /\ sums !! i = Some (Add_combine a b)
             /\ products !! i = Some (Multiply_combine a b)).
Proof.
  intros left_output right_output sums products.
  destruct (output_pairs_combined start Add_combine l r input)
    as (Ha1 & Ha2 & Ha3).
  destruct (output_pairs_combined start Multiply_combine l r input)
    as (Hm1 & Hm2 & Hm3).
  cbn zeta in *. subst left_output right_output sums products.
  unfold Add_run, Multiply_run, returns; cbn [yielded].
  split; [|split; [|split]].
  - intros Hl Hr. split.
    + rewrite (Ha1 Hl). exact Hr.
    + rewrite (Hm1 Hl). exact Hr.
  - intros Hl. split; [exact (Ha1 Hl) | exact (Hm1 Hl)].
  - intros Hr. split; [exact (Ha2 Hr) | exact (Hm2 Hr)].
  - intros Hl Hr.
    destruct (Ha3 Hl Hr) as [Hlen_a Hnth_a].
    destruct (Hm3 Hl Hr) as [Hlen_m Hnth_m].
    split; [exact Hlen_a|]. split; [exact Hlen_m|].
    intros i Hi.
    destruct (Hnth_a i Hi) as (a & b & Ha & Hb & Hs).
    destruct (Hnth_m i Hi) as (a' & b' & Ha' & Hb' & Hp).
    exists a, b. repeat split; try done.
    congruence.
Qed.

(** [1, 2 + 10] gives 11 and 12: the shorter side is cycled. *)
Lemma Add_Multiply_output_pairs_witness :
  let start := engine.start no_commands 3 in
  let l := Comma (number 1) (number 2) in
  let r := number 10 in
  values (start l empty_channel) <> []
  /\ values (start r empty_channel) <> []
  /\ length (yielded (Add_run start l r empty_channel)) = 2
  /\ yielded (Add_run start l r empty_channel) !! 1
     = Some (Number (Decimal.of_Z 12)).
Proof.
  intros start l r.
  assert (Hl : values (start l empty_channel) <> []) by by vm_compute.
  assert (Hr : values (start r empty_channel) <> []) by by vm_compute.
  split; [exact Hl|]. split; [exact Hr|].
  destruct (Add_Multiply_output_pairs start l r empty_channel)
    as (_ & _ & _ & H).
  destruct (H Hl Hr) as (Hlen & _ & Hnth).
  split; [exact Hlen|].
  destruct (Hnth 1) as (a & b & Ha & Hb & Hs & _); [vm_compute; lia|].
  vm_compute in Ha, Hb. injection Ha as <-. injection Hb as <-.
  exact Hs.
Defined.

End OperatorFacts.

Section ObjectFacts.
Import filter values channel generator functions engine.






End ObjectFacts.

Section NameFacts.
Import filter values channel generator functions engine.

(** the registry of the module has no variadic entry, and no name without
    an entry *)
Lemma builtin_functions_fixed_arities :
  map_Forall (fun _ function_vector =>
                function_vector !! varargs = (None : option Builtin)
                /\ function_vector <> ∅)
    builtin_functions.
Proof.
  unfold builtin_functions.
  repeat (apply map_Forall_insert_2; [by split; vm_compute|]);
    apply map_Forall_empty.
Qed.

(** [Name.run_raw] over any registry: a bound name replays its sequence;
    an unbound name invokes the builtin registered at arity 0, or failing
    that the variadic one; with neither, one exception is produced. *)
Lemma Name_run_raw_any_registry start registry name input :
  (forall var,
      local_namespace input !! name = Some var ->
      values (Name_run_raw start registry name input) = var)
  /\ (local_namespace input !! name = None ->
      (forall function_vector builtin,
          registry !! name = Some function_vector ->
          function_vector !! Some 0 = Some builtin ->
          Name_run_raw start registry name input
          = call_builtin start builtin [] input)
      /\ (forall function_vector builtin,
          registry !! name = Some function_vector ->
          function_vector !! Some 0 = None ->
          function_vector !! varargs = Some builtin ->
          Name_run_raw start registry name input
          = call_builtin start builtin [] input)
      /\ (forall function_vector,
          registry !! name = Some function_vector ->
          function_vector !! Some 0 = None ->
          function_vector !! varargs = None ->
          exists info,
            values (Name_run_raw start registry name input)
            = [JQSHException (lit "numArgs") info])
      /\ (registry !! name = None ->
          values (Name_run_raw start registry name input)
          = [JQSHException (lit "name") (missing_name name)])).
Proof.
  unfold Name_run_raw, get_builtin. split.
  - by intros var ->.
  - intros ->. repeat split.
    + by intros vec b -> ->.
    + by intros vec b -> -> ->.
    + intros vec -> -> ->. by eexists.
    + by intros ->.
Qed.

(** A registry extended with a variadic entry only: the bare name invokes
    the variadic builtin. *)
Example Name_run_raw_variadic_invoked :
  values (Name_run_raw (engine.start no_commands 2)
            {[ lit "nothing" := {[ varargs := B_empty ]} ]}
            (lit "nothing") empty_channel)
  = [].
Proof. vm_compute. reflexivity. Qed.

(** C6.  A name bound in the channel's local namespace replays the whole
    captured sequence of the binding, in order.  An unbound name for which
    the catalog has a zero-arity builtin invokes that builtin.  Any other
    unbound name produces exactly one exception and nothing else: numArgs
    when the name is a builtin at some other arity, name when it is no
    builtin at all (and these are the only two cases). *)
Theorem Name_run_raw_resolution start name input :
  (forall var,
      local_namespace input !! name = Some var ->
      values (Name_run_raw start builtin_functions name input) = var)
  /\ (local_namespace input !! name = None ->
      (forall function_vector builtin,
          builtin_functions !! name = Some function_vector ->
          function_vector !! Some 0 = Some builtin ->
          Name_run_raw start builtin_functions name input
          = call_builtin start builtin [] input)
      /\ (forall function_vector,
          builtin_functions !! name = Some function_vector ->
          function_vector !! Some 0 = None ->
          (exists n builtin, n <> 0 /\ function_vector !! Some n = Some builtin)
          /\ exists info,
               values (Name_run_raw start builtin_functions name input)
               = [JQSHException (lit "numArgs") info])
      /\ (builtin_functions !! name = None ->
          values (Name_run_raw start builtin_functions name input)
          = [JQSHException (lit "name") (missing_name name)])).
Proof.
  destruct (Name_run_raw_any_registry start builtin_functions name input)
    as [Hbound Hunbound].
  split; [exact Hbound|].
  intros Hnone. destruct (Hunbound Hnone) as (H0 & _ & Hnum & Hname).
  split; [exact H0|]. split; [|exact Hname].
  intros vec Hvec Hzero.
  destruct (builtin_functions_fixed_arities _ _ Hvec) as [Hvar Hne].
  unfold varargs in Hvar.
  split; [|by apply (Hnum vec)].
  apply map_choose in Hne as ([n|] & b & Hb); [|congruence].
  exists n, b. split; [|done]. intros ->. congruence.
Qed.

Lemma Name_run_raw_resolution_witness :
  let start := engine.start no_commands 2 in
  local_namespace empty_channel !! lit "nth" = None
  /\ builtin_functions !! lit "nth" = Some {[ Some 1 := B_nth ]}
  /\ exists info,
       values (Name_run_raw start builtin_functions (lit "nth") empty_channel)
       = [JQSHException (lit "numArgs") info].
Proof.
  intros start.
  assert (H1 : local_namespace empty_channel !! lit "nth" = None)
    by reflexivity.
  assert (H2 : builtin_functions !! lit "nth" = Some {[ Some 1 := B_nth ]})
    by (vm_compute; reflexivity).
  split; [exact H1|]. split; [exact H2|].
  destruct (Name_run_raw_resolution start (lit "nth") empty_channel) as [_ H].
  destruct (H H1) as (_ & H3 & _).
  destruct (H3 _ H2) as [_ H4]; [reflexivity|]. exact H4.
Defined.

End NameFacts.

Section TryFacts.
Import filter values channel generator functions engine.

Lemma first_exception_Some vs e :
  first_exception vs = Some e ->
  is_exception e = true
  /\ exists before after,
       vs = before ++ e :: after
       /\ Forall (fun v => is_exception v = false) before.
Proof.
  unfold first_exception.
  induction vs as [|v vs IH]; [done|]. cbn [find].
  destruct (is_exception v) eqn:Hv.
  - intros [= <-]. split; [done|]. by exists [], vs.
  - intros H. destruct (IH H) as (He & before & after & -> & Hb).
    split; [done|]. exists (v :: before), after. split; [done|].
    by constructor.
Qed.

Lemma first_exception_None vs :
  first_exception vs = None <-> Forall (fun v => is_exception v = false) vs.
Proof.
  unfold first_exception. induction vs as [|v vs IH]; cbn [find].
  - split; [constructor | done].
  - destruct (is_exception v) eqn:Hv.
    + split; [done|]. intros H. inversion H; congruence.
    + rewrite IH. split; [by constructor | by inversion 1].
Qed.

(** C7, as [Try.run] has it.  When a catch clause's name is no sensible
    string, one sensibleString exception is yielded and the try block is not
    run.  Otherwise, with the handlers the clauses register: an exception in
    the try block's output is replaced by the output of the handler registered
    for its kind, else of the default handler, else it is yielded itself and
    the output ends; and a try block's output without exception is replaced
    by the else handler's output when there is one, and yielded as it is
    when there is none. *)
Theorem Try_run_dispatch start attributes input :
  (forall exc,
      Try_clauses start attributes input (mkTryClauses None ∅ None None [])
      = inr exc ->
      exc = exception "sensibleString"
      /\ Try_run start attributes input = returns [exc])
  /\ (forall st block,
      Try_clauses start attributes input (mkTryClauses None ∅ None None [])
      = inl st ->
      try_block st = Some block ->
      let try_output := values (start block input) in
      let result := Try_run start attributes input in
      raised result = None
      /\ (forall e name,
          first_exception try_output = Some e ->
          exception_name e = Some name ->
          (forall handler,
              exception_handlers st !! name = Some handler ->
              yielded result = values (start handler input))
          /\ (forall handler,
              exception_handlers st !! name = None ->
              default_handler st = Some handler ->
              yielded result = values (start handler input))
          /\ (exception_handlers st !! name = None ->
              default_handler st = None ->
              yielded result = [e]))
      /\ (first_exception try_output = None ->
          (forall handler,
              else_handler st = Some handler ->
              yielded result = values (start handler input))
          /\ (else_handler st = None -> yielded result = try_output))).
Proof.
  split.
  - intros exc Hexc. split.
    + generalize dependent (mkTryClauses None ∅ None None []).
      induction attributes as [|[attribute_name attribute_value] attrs IH];
        intros st Hst; [done|].
      cbn [Try_clauses] in Hst.
      repeat case_bool_decide; try (by eapply IH).
      destruct (sensible_string start attribute_value input);
        [by eapply IH | by injection Hst as <-].
    + unfold Try_run. by rewrite Hexc.
  - intros st block Hst Hblock try_output result.
    subst result try_output. unfold Try_run. rewrite Hst, Hblock.
    unfold Try_dispatch.
    destruct (first_exception (values (start block input))) as [e|] eqn:He.
    + split.
      { destruct (exception_name e); [|done].
        destruct (exception_handlers st !! _); [done|].
        by destruct (default_handler st). }
      split; [|done].
      intros e' name [= <-] ->. repeat split.
      * by intros handler ->.
      * by intros handler -> ->.
      * by intros -> ->.
    + split; [by destruct (else_handler st)|].
      split; [done|]. intros _. split.
      * by intros handler ->.
      * by intros ->.
Qed.

(** [try (nth) catch "numArgs" then 1 end]: the handler registered for the
    kind of the exception replaces it. *)
Lemma Try_run_dispatch_witness :
  let start := engine.start no_commands 3 in
  let attributes :=
    [ (lit "try", Name (lit "nth"));
      (lit "catch", StringLiteral (lit "numArgs"));
      (lit "then", number 1) ] in
  yielded (Try_run start attributes empty_channel) = [Number (Decimal.of_Z 1)].
Proof.
  intros start attributes.
  destruct (Try_run_dispatch start attributes empty_channel) as [_ H].
  destruct (Try_clauses start attributes empty_channel
              (mkTryClauses None ∅ None None [])) as [st|exc] eqn:Hst;
    [|vm_compute in Hst; discriminate].
  assert (Hblock : try_block st = Some (Name (lit "nth"))).
  { vm_compute in Hst. injection Hst as <-. reflexivity. }
  destruct (H st _ eq_refl Hblock) as (_ & Hexc & _).
  destruct (Hexc (JQSHException (lit "numArgs")
                    (num_args (lit "nth") [Some 1] 0)) (lit "numArgs"))
    as (Hhandler & _); [by vm_compute | reflexivity |].
  rewrite (Hhandler (number 1)); [reflexivity|].
  vm_compute in Hst. injection Hst as <-. by vm_compute.
Defined.

(** C7 as stated fails: a Try filter whose catch clause has no sensible
    name yields a sensibleString exception, not its try block's output,
    although that output has no exception and there is no else handler. *)
Lemma Try_run_catch_not_sensible :
  ~ (forall attributes block input,
       let start := engine.start no_commands 3 in
       (lit "try", block) ∈ attributes ->
       Forall (fun clause => clause.1 <> lit "else") attributes ->
       first_exception (values (start block input)) = None ->
       yielded (Try_run start attributes input) = values (start block input)).
Proof.
  intros H.
  specialize (H [ (lit "try", number 1); (lit "catch", number 2);
                  (lit "then", EmptyFilter) ]
                (number 1) empty_channel).
  cbn zeta in H.
  assert (Hfalse : [exception "sensibleString"] = [Number (Decimal.of_Z 1)]);
    [|discriminate].
  apply H.
  - left.
  - repeat constructor; by vm_compute.
  - reflexivity.
Qed.

End TryFacts.

Section WorkerFacts.
Import filter values channel generator worker.

Lemma push_Some_inv p v p' :
  push p v = Some p' ->
  is_terminated p = false
  /\ pushed p' = pushed p ++ [v]
  /\ terminate_calls p' = terminate_calls p.
Proof.
  unfold push. destruct (is_terminated p); [done|]. by intros [= <-].
Qed.

Lemma push_None_inv p v : push p v = None -> is_terminated p = true.
Proof. unfold push. by destruct (is_terminated p). Qed.

Lemma is_terminated_calls p :
  is_terminated p = true <-> 0 < terminate_calls p.
Proof.
  unfold is_terminated. destruct (terminate_calls p); cbn; split; (done || lia).
Qed.

Lemma is_terminated_no_calls p :
  is_terminated p = false <-> terminate_calls p = 0.
Proof.
  unfold is_terminated. destruct (terminate_calls p); cbn; split; (done || lia).
Qed.

(** an invariant holds in every reachable state *)
Lemma reachable_invariant (P : State -> Prop) s0 :
  P s0 ->
  (forall s t s', P s -> step t s = Some s' -> P s') ->
  forall s, reachable s0 s -> P s.
Proof. intros H0 Hstep s. induction 1; eauto. Qed.

Lemma reachable_trans s0 s1 s2 :
  reachable s0 s1 -> reachable s1 s2 -> reachable s0 s2.
Proof. intros H1. induction 1; [done|]. by eapply reachable_step. Qed.

Lemma reachable_run_schedule schedule s0 :
  forall s, reachable s0 s -> reachable s0 (run_schedule schedule s).
Proof.
  induction schedule as [|t schedule IH]; intros s Hs; [done|].
  cbn [run_schedule]. apply IH.
  destruct (step t s) as [s'|] eqn:Hstep; [|done].
  by eapply reachable_step.
Qed.

(** the cases of one step, with the state taken apart *)
Ltac step_cases H :=
  match type of H with
  | step ?t ?s = Some _ =>
      destruct s as [inp m h br bt out gen];
      destruct t; cbn [step step_main step_helper] in H;
      repeat match type of H with
        | context [match ?x with _ => _ end] => destruct x eqn:?
        end;
      try discriminate; injection H as <-;
      repeat match goal with
        | Hp : push _ _ = Some _ |- _ =>
            apply push_Some_inv in Hp as (? & ? & ?)
        | Hp : push _ _ = None |- _ => apply push_None_inv in Hp
        end;
      cbn [input main helper bridge bridge_terminated output generated
             terminate pushed terminate_calls] in *
  end.

(** the program counters taken apart, then arithmetic *)
Ltac pc_cases :=
  repeat match goal with
    | H : is_terminated _ = true |- _ => apply is_terminated_calls in H
    | H : is_terminated _ = false |- _ => apply is_terminated_no_calls in H
    end;
  repeat match goal with
    | m : MainPC |- _ => destruct m as [| | | |[]|[]|[]|[]|]
    | h : HelperPC |- _ => destruct h as [| | |[]|]
    | b : bool |- _ => destruct b
    end;
  cbn in *; try done; try lia; try congruence.

Lemma worker_invariant_reachable g vs s :
  reachable (initial g vs) s -> worker_invariant s.
Proof.
  apply reachable_invariant; [by repeat split|].
  clear s. intros s t s' (Hcalls & Hbridge & Hjoin) Hstep.
  unfold worker_invariant in *.
  step_cases Hstep; subst; repeat split; pc_cases.
Qed.

Lemma reachable_invariant_strong (P : State -> Prop) s0 :
  P s0 ->
  (forall s t s', reachable s0 s -> P s -> step t s = Some s' -> P s') ->
  forall s, reachable s0 s -> P s.
Proof. intros H0 Hstep s. induction 1; eauto. Qed.

Lemma until_exception_snoc vs v :
  Forall (fun v => is_exception v = false) vs ->
  until_exception (vs ++ [v]) = vs ++ [v].
Proof.
  intros Hvs. induction Hvs as [|x xs Hx _ IH]; cbn [app until_exception].
  - by destruct (is_exception v).
  - by rewrite Hx, IH.
Qed.

Lemma generated_invariant_reachable g vs s :
  reachable (initial g vs) s -> generated_invariant s.
Proof.
  apply reachable_invariant; [by split; [|constructor]|].
  clear s. intros s t s' (Huntil & Hrun) Hstep.
  unfold generated_invariant in *.
  step_cases Hstep; subst; try (split; [done|pc_cases]).
  - split; [by apply until_exception_snoc|done].
  - split; [by apply until_exception_snoc|].
    apply Forall_app. split; [done|]. by constructor.
Qed.

Lemma no_raise_invariant_reachable g vs s :
  no_raise g -> reachable (initial g vs) s -> no_raise_invariant s.
Proof.
  intros Hg. apply reachable_invariant; [done|].
  clear s. intros s t s' Hinv Hstep. unfold no_raise_invariant in *.
  step_cases Hstep; subst; try done;
    try (by inversion Hinv); try congruence.
  all: try (destruct h as [| | |[]|]; try done;
            apply is_terminated_calls; cbn;
            apply is_terminated_calls in Hinv; lia).
  all: destruct h as [| | |[]|]; done || congruence.
Qed.

Lemma forwarding_invariant_reachable g before e after s :
  Forall (fun v => is_exception v = false) before ->
  is_exception e = true ->
  reachable (initial g (before ++ e :: after)) s ->
  forwarding_invariant before e after s.
Proof.
  intros Hbefore He. apply reachable_invariant; [by exists 0|].
  clear s. intros s t s' Hinv Hstep. unfold forwarding_invariant in *.
  step_cases Hstep; subst; try done.
  - (* the loop has nothing to draw: impossible before [e] *)
    destruct Hinv as [k Hk]. by destruct (drop k before).
  - (* the loop draws a value *)
    destruct Hinv as [k Hk].
    destruct (drop k before) as [|x rest] eqn:Hdrop; cbn [app] in Hk;
      injection Hk as -> ->; [by right|].
    left. split.
    + pose proof (Forall_drop _ k _ Hbefore) as Hd.
      rewrite Hdrop in Hd. by inversion Hd.
    + exists (S k). f_equal.
      replace (S k) with (k + 1) by lia.
      by rewrite <- drop_drop, Hdrop.
  - destruct Hinv as [[? ?]|[-> ?]]; [congruence|done].
  - destruct Hinv as [[? ?]|[-> ?]]; [done|congruence].
  - destruct Hinv as [-> ->]. repeat split.
    rewrite H0. apply elem_of_app. right. left.
  - by destruct Hinv.
  - destruct m as [| | | |[]|[]|[]|[]|]; try done;
      destruct Hinv as (? & ? & Hin); repeat split; try done;
      rewrite H0; apply elem_of_app; by left.
  - destruct m as [| | | |[]|[]|[]|[]|]; try done;
      destruct Hinv as (? & ? & Hin); repeat split; try done;
      rewrite H0; apply elem_of_app; by left.
  - destruct m as [| | | |[]|[]|[]|[]|]; try done;
      destruct Hinv as (? & ? & Hin); repeat split; try done;
      rewrite H0; apply elem_of_app; by left.
Qed.

Lemma raising_invariant_reachable e0 vs s :
  Forall (fun v => is_exception v = false) vs ->
  reachable (initial (GRaise e0) vs) s -> raising_invariant e0 s.
Proof.
  intros Hvs.
  apply reachable_invariant_strong; [by repeat split|].
  clear s. intros s t s' Hreach (Hinput & Hmain & Hhelper) Hstep.
  apply worker_invariant_reachable in Hreach as (Hcalls & _ & Hjoin).
  unfold raising_invariant in *.
  step_cases Hstep; subst; cbn [terminate_calls_of] in *;
    try (by inversion Hinput; subst); try (repeat split; pc_cases; fail).
  all: try (by destruct Hhelper as [[=] _]).
  - by destruct Hhelper as [[= ->] ?].
  - destruct Hhelper as [-> Hp]. do 2 (split; [done|]).
    match goal with H : pushed _ = _ ++ _ |- _ => by rewrite H, Hp end.
Qed.

(** the values pushed after an exception: none *)
Lemma until_exception_fixed vs :
  until_exception vs = vs ->
  forall i v, vs !! i = Some v -> is_exception v = true -> S i = length vs.
Proof.
  induction vs as [|x vs IH]; intros Hfix i v Hi Hv; [done|].
  cbn [until_exception] in Hfix. injection Hfix as Hfix.
  destruct i as [|i]; cbn in Hi.
  - injection Hi as ->. rewrite Hv in Hfix. by subst vs.
  - destruct (is_exception x); [by subst vs|].
    cbn [length]. f_equal. by eapply IH.
Qed.

(** When [run_raw] has returned, [output_channel.terminate()] has been
    called once by its last statement, once more when [throw] ran in the
    forwarding loop, and once more when the [except] clause of the helper ran
    to its end: at least once, at most three times, and exactly once only
    when neither happened. *)
Theorem run_raw_terminate_calls g vs s threw :
  reachable (initial g vs) s ->
  main s = MDone threw ->
  1 <= terminate_calls (output s) <= 3
  /\ (terminate_calls (output s) = 1
      <-> threw = false /\ helper s <> HDone true).
Proof.
  intros Hreach Hmain.
  destruct (worker_invariant_reachable _ _ _ Hreach) as (Hcalls & _ & _).
  rewrite Hcalls, Hmain.
  destruct threw, (helper s) as [| | |[]|]; cbn; split; try lia;
    split; try lia; try (by intros [? ?]); by intros _.
Qed.

Lemma run_raw_terminate_calls_witness :
  let s := run_schedule [Helper; Main; Main; Main; Main] (initial GReturn []) in
  main s = MDone false /\ terminate_calls (output s) = 1.
Proof.
  intros s.
  assert (Hmain : main s = MDone false) by reflexivity.
  split; [exact Hmain|].
  apply (run_raw_terminate_calls GReturn [] s false).
  - apply reachable_run_schedule, reachable_refl.
  - exact Hmain.
  - split; [reflexivity | discriminate].
Defined.

(** Under every interleaving, the helper thread pushes no value of the
    generator after an exception value of the generator. *)
Theorem run_thread_pushes_nothing_after_exception g vs s i v :
  reachable (initial g vs) s ->
  generated s !! i = Some v ->
  is_exception v = true ->
  S i = length (generated s).
Proof.
  intros Hreach. apply until_exception_fixed.
  by destruct (generated_invariant_reachable _ _ _ Hreach).
Qed.

Lemma run_thread_pushes_nothing_after_exception_witness :
  let g := yields [Null; exception "type"; Null] in
  let s := run_schedule [Helper; Helper; Helper; Helper] (initial g []) in
  generated s = [Null; exception "type"].
Proof.
  intros g s.
  assert (Hlen : S 1 = length (generated s)).
  { apply (run_thread_pushes_nothing_after_exception g [] s 1 (exception "type")).
    - apply reachable_run_schedule, reachable_refl.
    - reflexivity.
    - reflexivity. }
  reflexivity.
Defined.

(** On an input whose first exception is [e], under every interleaving:
    the forwarding loop draws no value after [e]; and when [run_raw] has
    returned it has thrown, and [e] itself is among the values pushed onto the
    output. *)
Theorem run_raw_forwards_first_exception g before e after s :
  Forall (fun v => is_exception v = false) before ->
  is_exception e = true ->
  reachable (initial g (before ++ e :: after)) s ->
  after `suffix_of` input s
  /\ (forall threw, main s = MDone threw ->
        threw = true /\ e ∈ pushed (output s)).
Proof.
  intros Hbefore He Hreach.
  pose proof (forwarding_invariant_reachable _ _ _ _ _ Hbefore He Hreach) as Hinv.
  unfold forwarding_invariant in Hinv. split.
  - destruct (main s) as [| | | |[]|[]|[]|[]|];
      repeat match goal with
        | H : _ \/ _ |- _ => destruct H
        | H : _ /\ _ |- _ => destruct H
        | H : exists _, _ |- _ => destruct H
        end; try done;
      match goal with
      | H : input s = _ |- _ => rewrite H
      end; try done; by eexists (_ ++ [_]); rewrite <- app_assoc.
  - intros threw Hmain. rewrite Hmain in Hinv.
    destruct threw; [|by destruct Hinv]. by destruct Hinv as (_ & _ & ?).
Qed.

Lemma run_raw_forwards_first_exception_witness :
  let e := exception "type" in
  let s := run_schedule
             [Main; Main; Main; Main; Main; Main; Helper; Main; Main; Main]
             (initial GReturn [Null; e; Null]) in
  main s = MDone true /\ input s = [Null] /\ e ∈ pushed (output s).
Proof.
  intros e s.
  assert (Hmain : main s = MDone true) by reflexivity.
  split; [exact Hmain|]. split; [reflexivity|].
  destruct (run_raw_forwards_first_exception GReturn [Null] e [Null] s)
    as [_ H].
  - by repeat constructor.
  - reflexivity.
  - apply reachable_run_schedule, reachable_refl.
  - by destruct (H true Hmain).
Defined.

(** A generator that never raises: under every interleaving the thread of
    [run_raw] does not die on a rejected push, and the [except] clause of
    the helper never terminates the output. *)
Theorem run_raw_without_raise g vs s :
  no_raise g ->
  reachable (initial g vs) s ->
  main s <> MDead /\ helper s <> HDone true /\ helper s <> HCatchTerminate.
Proof.
  intros Hg Hreach.
  pose proof (no_raise_invariant_reachable _ _ _ Hg Hreach) as Hno.
  destruct (worker_invariant_reachable _ _ _ Hreach) as (_ & _ & Hjoin).
  unfold no_raise_invariant in Hno.
  repeat split; intros Heq; rewrite Heq in *; try done.
  by rewrite Hjoin in Hno.
Qed.

Lemma run_raw_without_raise_witness :
  let g := yields [Null] in
  let s := run_schedule
             [Main; Main; Main; Main; Helper; Helper; Main; Main; Main]
             (initial g [exception "type"]) in
  main s = MDone true /\ helper s = HDead /\ main s <> MDead.
Proof.
  intros g s. split; [reflexivity|]. split; [reflexivity|].
  destruct (run_raw_without_raise g [exception "type"] s) as (H & _ & _).
  - repeat constructor.
  - apply reachable_run_schedule, reachable_refl.
  - exact H.
Defined.



(** A generator that raises before it yields, on an input without
    exception: under every interleaving, when [run_raw] has returned the
    internal exception is the only value on the output, and
    [output_channel.terminate()] has been called twice, by the [except]
    clause and by the last statement of [run_raw]. *)
Theorem run_raw_internal_exception e0 vs s threw :
  Forall (fun v => is_exception v = false) vs ->
  reachable (initial (GRaise e0) vs) s ->
  main s = MDone threw ->
  pushed (output s) = [internal e0] /\ terminate_calls (output s) = 2.
Proof.
  intros Hvs Hreach Hmain.
  destruct (raising_invariant_reachable _ _ _ Hvs Hreach) as (_ & Hm & Hh).
  destruct (worker_invariant_reachable _ _ _ Hreach) as (Hcalls & _ & Hjoin).
  rewrite Hcalls. rewrite Hmain in *.
  destruct threw; [done|].
  destruct (helper s) as [| | |[]|]; try done.
Qed.

Lemma run_raw_internal_exception_witness :
  let e0 := NotImplementedError "unknown clause in if filter" in
  let s := run_schedule [Helper; Helper; Helper; Main; Main; Main; Main]
             (initial (GRaise e0) []) in
  main s = MDone false
  /\ pushed (output s) = [internal e0] /\ terminate_calls (output s) = 2.
Proof.
  intros e0 s.
  assert (Hmain : main s = MDone false) by reflexivity.
  split; [exact Hmain|].
  apply (run_raw_internal_exception e0 [] s false).
  - constructor.
  - apply reachable_run_schedule, reachable_refl.
  - exact Hmain.
Defined.

End WorkerFacts.

Section ParserEdgeFacts.
Import filter parser.

Lemma check_illegal_None l :
  check_illegal l = None ->
  Forall (fun item => bracket_item item = true
                      /\ exists t, item = IToken t) l.
Proof.
  induction l as [|[t|g] l IH]; cbn [check_illegal]; [by constructor| |done].
  destruct (TokenType_eqb (token_type t) illegal); [done|].
  intros H. constructor; [by eauto | by apply IH].
Qed.

Lemma check_illegal_Some l err f :
  check_illegal l = Some err -> err <> Parsed f.
Proof.
  induction l as [|[t|g] l IH]; cbn [check_illegal]; [done| |by intros [= <-]].
  destruct (TokenType_eqb (token_type t) illegal); [by intros [= <-]|done].
Qed.

Lemma bracket_item_weaken l :
  Forall (fun item => bracket_item item = true /\ exists t, item = IToken t) l ->
  Forall (fun item => bracket_item item = true) l.
Proof. intros H. eapply Forall_impl; [exact H|]. by intros item [? _]. Qed.

Lemma merge_trailing_whitespace_items l l' :
  Forall (fun item => bracket_item item = true) l ->
  merge_trailing_whitespace l = inl l' ->
  Forall (fun item => bracket_item item = true) l'.
Proof.
  intros Hl. unfold merge_trailing_whitespace.
  destruct (reverse l) as [|[last|g] before] eqn:Hrev; try by intros [= <-].
  destruct (TokenType_eqb (token_type last) trailing_whitespace);
    [|by intros [= <-]].
  destruct before as [|[t|g] before']; try done.
  destruct (token_string t), (token_string last); try done.
  intros [= <-]. apply Forall_reverse. constructor; [done|].
  apply Forall_reverse in Hl. rewrite Hrev in Hl.
  by do 2 apply Forall_cons_1 in Hl as [_ Hl].
Qed.

Lemma paren_step_items rec st i item st' :
  (forall l f, rec l = Parsed f -> bracket_tree f = true) ->
  Forall (fun item => bracket_item item = true) (tokens st) ->
  paren_step rec st i item = inl st' ->
  Forall (fun item => bracket_item item = true) (tokens st').
Proof.
  intros Hrec Hst. unfold paren_step.
  destruct item as [token|g]; [|by intros [= <-]].
  destruct (is_closing_paren (token_type token)); [by intros [= <-]|].
  destruct (matching_parens (token_type token)) as [closing|] eqn:Hm;
    [|by intros [= <-]].
  destruct (paren_filters (token_type token)) as [wrap|] eqn:Hw;
    [|by intros [= <-]].
  destruct (paren_balance st - 1 <? 0)%Z; [done|].
  destruct (paren_balance st - 1 =? 0)%Z; [|by intros [= <-]].
  destruct (paren_start st) as [start|]; [|done].
  destruct (tokens st !! start) as [[closer|g]|]; try done.
  destruct (TokenType_eqb closing (token_type closer)); [|done].
  destruct (rec _) as [inner| | | | |] eqn:Hinner; try done.
  intros [= <-]. cbn [tokens].
  apply Forall_app. split; [by apply Forall_take|].
  constructor; [|by apply Forall_drop]. cbn [bracket_item].
  apply Hrec in Hinner.
  destruct (token_type token); try done; by injection Hw as <-.
Qed.

Lemma paren_loop_items rec items :
  (forall l f, rec l = Parsed f -> bracket_tree f = true) ->
  forall st st',
    Forall (fun item => bracket_item item = true) (tokens st) ->
    paren_loop rec items st = inl st' ->
    Forall (fun item => bracket_item item = true) (tokens st').
Proof.
  intros Hrec. induction items as [|[i item] items IH]; intros st st' Hst;
    cbn [paren_loop]; [by intros [= <-]|].
  destruct (paren_step rec st i item) as [st1|] eqn:Hstep; [|done].
  apply IH. by eapply paren_step_items.
Qed.

Lemma parse_fuel_bracket_trees_only fuel :
  forall items f, parse_fuel fuel items = Parsed f -> bracket_tree f = true.
Proof.
  induction fuel as [|fuel IH]; intros items f; [done|].
  cbn [parse_fuel]. unfold parse_body.
  destruct (List.filter not_comment items) as [|item0 items0] eqn:Hfilter;
    [by intros [= <-]|].
  destruct (check_illegal (item0 :: items0)) as [err|] eqn:Hillegal.
  { intros ->. by apply (check_illegal_Some _ _ f) in Hillegal. }
  pose proof (bracket_item_weaken _ (check_illegal_None _ Hillegal)) as Hitems.
  destruct (merge_trailing_whitespace (item0 :: items0)) as [merged|res] eqn:Hm.
  2:{ intros ->. unfold merge_trailing_whitespace in Hm.
      repeat (case_match; simplify_eq); try done.
      all: pose proof (check_illegal_None _ Hillegal) as Hall;
        apply Forall_reverse in Hall;
        match goal with H : reverse _ = _ |- _ => rewrite H in Hall end;
        repeat match goal with
          | H : Forall _ (_ :: _) |- _ =>
              apply Forall_cons_1 in H as [[_ [? ?]] H]
          end; simplify_eq. }
  pose proof (merge_trailing_whitespace_items _ _ Hitems Hm) as Hmerged.
  destruct (paren_loop _ _ _) as [st|err] eqn:Hloop.
  2:{ intros ->.
      (* an error of the loop is no [Parsed] unless the recursive call gave it *)
      exfalso. revert Hloop. generalize (mkParenState merged 0 None).
      generalize (reverse (imap pair merged)).
      intros l. induction l as [|[i item] l IHl]; intros st; cbn [paren_loop];
        [done|].
      destruct (paren_step _ st i item) as [st1|err] eqn:Hstep; [by apply IHl|].
      intros [= ->]. unfold paren_step in Hstep.
      repeat (case_match; simplify_eq). }
  apply (paren_loop_items _ _ IH) in Hloop; [|done].
  destruct (negb _); [done|].
  destruct (tokens st) as [|[t|g] [|? ?]]; try done.
  intros [= <-]. by apply Forall_cons_1 in Hloop as [? _].
Qed.

(** [parse] builds nothing but parens and array literals around the empty
    filter: whatever text it accepts, the filter it returns is made of these
    only. *)
Theorem parse_returns_bracket_tree (jqsh_string : str) (f : Filter) :
  parse jqsh_string = Parsed f -> bracket_tree f = true.
Proof.
  unfold parse, parse_tokens.
  destruct (tokenize jqsh_string); [|done].
  apply parse_fuel_bracket_trees_only.
Qed.

Lemma parse_returns_bracket_tree_witness :
  parse (lit " [ ( ) ] # done") = Parsed (filter.Array (Parens EmptyFilter))
  /\ bracket_tree (filter.Array (Parens EmptyFilter)) = true.
Proof.
  assert (H : parse (lit " [ ( ) ] # done")
              = Parsed (filter.Array (Parens EmptyFilter))) by reflexivity.
  split; [exact H|]. exact (parse_returns_bracket_tree _ _ H).
Defined.

Lemma tokenize_loop_whitespace rest_string :
  Forall (fun c => char_in c whitespace = true) rest_string ->
  forall fuel whitespace_prefix,
    length rest_string < fuel ->
    tokenize_loop fuel rest_string whitespace_prefix
    = Some (if bool_decide (whitespace_prefix ++ rest_string = []) then []
            else [mkToken trailing_whitespace
                    (Some (whitespace_prefix ++ rest_string)) None]).
Proof.
  induction 1 as [|c rest Hc _ IH]; intros fuel ws Hlen;
    (destruct fuel as [|fuel]; [cbn in Hlen; lia|]); cbn [tokenize_loop].
  - by rewrite app_nil_r.
  - rewrite Hc, IH by (cbn in Hlen; lia).
    by rewrite <- app_assoc.
Qed.

(** A text of whitespace only (the empty text too) parses to the empty
    filter. *)
Theorem parse_whitespace_only (jqsh_string : str) :
  Forall (fun c => char_in c whitespace = true) jqsh_string ->
  parse jqsh_string = Parsed EmptyFilter.
Proof.
  intros Hws. unfold parse, tokenize.
  destruct jqsh_string as [|c rest]; [done|].
  assert ((c =? bom)%N = false) as ->.
  { apply Forall_cons_1 in Hws as [Hc _]. apply N.eqb_neq. intros ->.
    discriminate Hc. }
  rewrite (tokenize_loop_whitespace _ Hws) by lia.
  reflexivity.
Qed.

Lemma parse_whitespace_only_witness :
  parse (lit "  ") = Parsed EmptyFilter.
Proof.
  apply parse_whitespace_only. by repeat constructor.
Defined.

Lemma check_illegal_found l :
  Forall (fun item => exists t, item = IToken t) l ->
  Exists (fun item => exists t, item = IToken t /\ token_type t = illegal) l ->
  check_illegal l = Some (SyntaxError "illegal character").
Proof.
  intros Hall Hex. induction Hex as [item l (t & -> & Ht)|item l Hex IH];
    cbn [check_illegal].
  - by rewrite Ht.
  - apply Forall_cons_1 in Hall as [[t ->] Hall].
    destruct (TokenType_eqb (token_type t) illegal); [done|by apply IH].
Qed.

(** Whenever [tokenize] has produced an illegal token, [parse] raises the
    syntax error for an illegal character, whatever else the text holds. *)
Theorem parse_illegal_token (jqsh_string : str) toks t :
  tokenize jqsh_string = Some toks ->
  t ∈ toks ->
  token_type t = illegal ->
  parse jqsh_string = SyntaxError "illegal character".
Proof.
  intros Htok Hin Ht. unfold parse, parse_tokens. rewrite Htok.
  cbn [parse_fuel]. unfold parse_body.
  assert (Hfilter : IToken t ∈ List.filter not_comment (IToken <$> toks)).
  { apply list_elem_of_In, filter_In. split.
    - apply list_elem_of_In, list_elem_of_fmap. eauto.
    - cbn. by rewrite Ht. }
  assert (Hcheck : check_illegal (List.filter not_comment (IToken <$> toks))
                   = Some (SyntaxError "illegal character")).
  { apply check_illegal_found.
    - apply Forall_forall. intros item Hitem.
      apply list_elem_of_In, filter_In in Hitem as [Hitem _].
      apply list_elem_of_In, list_elem_of_fmap in Hitem as (t' & -> & _). eauto.
    - apply Exists_exists. exists (IToken t). split; [done|]. eauto. }
  destruct (List.filter not_comment (IToken <$> toks)) as [|item items];
    [by apply not_elem_of_nil in Hfilter|].
  by rewrite Hcheck.
Qed.

Lemma parse_illegal_token_witness :
  parse (lit "(1 + 2)") = SyntaxError "illegal character".
Proof.
  eapply (parse_illegal_token _ _
            (mkToken illegal (Some (lit "1 + 2)")) (Some (lit "1 + 2)")))).
  - reflexivity.
  - right. left.
  - reflexivity.
Defined.

Lemma find_symbol_type c rest ty :
  find (fun sym => startswith (c :: rest) sym.1) sorted_symbols = Some ([c], ty) ->
  is_final_type ty = false.
Proof.
  unfold sorted_symbols.
  change symbols with
    [([40%N], open_paren); ([41%N], close_paren);
     ([91%N], open_array); ([93%N], close_array)].
  cbn [existsb find startswith fst]. rewrite !andb_true_r.
  repeat (case_match; [by intros [= _ <-]|]). done.
Qed.

Lemma tokenize_loop_final_types fuel :
  forall rest_string whitespace_prefix toks i t,
    tokenize_loop fuel rest_string whitespace_prefix = Some toks ->
    toks !! i = Some t ->
    is_final_type (token_type t) = true ->
    S i = length toks.
Proof.
  induction fuel as [|fuel IH]; intros rest ws toks i t; [done|].
  destruct rest as [|c rest']; cbn [tokenize_loop].
  - case_bool_decide; intros [= <-]; [done|].
    by destruct i as [|[|i]].
  - destruct (char_in c whitespace); [by apply IH|].
    destruct (N.eqb_spec c 35) as [->|_].
    { destruct (comment_loop rest' []) as [txt r'].
      destruct (tokenize_loop fuel r' []) as [toks'|] eqn:Htoks; [|done].
      intros [= <-]. destruct i as [|i]; cbn.
      - by intros [= <-].
      - intros Hi Ht. f_equal. by eapply IH. }
    destruct (existsb _ symbols) eqn:Hsym.
    { destruct (find_symbol _ _ Hsym) as [ty Hfind]. rewrite Hfind.
      apply find_symbol_type in Hfind.
      destruct (tokenize_loop fuel _ []) as [toks'|] eqn:Htoks; [|done].
      intros [= <-]. destruct i as [|i]; cbn.
      - intros [= <-]. cbn. congruence.
      - intros Hi Ht. f_equal. by eapply IH. }
    intros [= <-]. by destruct i as [|[|i]].
Qed.

(** In the token sequence of any text, an illegal token and a
    trailing-whitespace token can only be the last token. *)
Theorem tokenize_final_types (jqsh_string : str) toks i t :
  tokenize jqsh_string = Some toks ->
  toks !! i = Some t ->
  is_final_type (token_type t) = true ->
  S i = length toks.
Proof.
  unfold tokenize. destruct jqsh_string as [|c rest].
  - apply tokenize_loop_final_types.
  - destruct (c =? bom)%N; apply tokenize_loop_final_types.
Qed.

Lemma tokenize_final_types_witness :
  exists toks,
    tokenize (lit "( ) x ( ") = Some toks /\ length toks = 3.
Proof.
  eexists. split; [reflexivity|].
  symmetry.
  eapply (tokenize_final_types (lit "( ) x ( ") _ 2); reflexivity.
Defined.

(** one bracket group whose closing bracket is of the other type *)
Lemma parse_body_group_mismatch rec opening closing expected o c wrap mid :
  matching_parens opening = Some expected ->
  paren_filters opening = Some wrap ->
  TokenType_eqb expected closing = false ->
  is_closing_paren closing = true ->
  is_closing_paren opening = false ->
  (forall parse' (l : list (nat * Item)) toks balance start,
      l.*2 = reverse mid -> (1 <= balance)%Z ->
      paren_loop parse' l (mkParenState toks balance start)
      = inl (mkParenState toks balance start)) ->
  Forall (fun item => is_bracket_item item = true) mid ->
  parse_body rec
    (IToken (bracket_token opening o) :: mid ++ [IToken (bracket_token closing c)])
  = SyntaxError "opening paren does not match closing paren".
Proof.
  intros Hmatch Hwrap Hne Hclose Hopen Hbalanced Hmid.
  rewrite parse_body_brackets; [|done|].
  2:{ constructor; [by destruct opening|].
      apply Forall_app; split; [done|]. repeat constructor.
      by destruct closing. }
  rewrite reverse_imap_brackets.
  cbn [paren_loop paren_step token_type bracket_token paren_balance
         tokens paren_start].
  rewrite Hclose. cbn [Z.eqb Z.add].
  rewrite paren_loop_app, Hbalanced; [| |lia].
  2:{ rewrite fmap_reverse. f_equal. apply (snd_imap_pair S). }
  cbn [paren_loop paren_step token_type bracket_token paren_balance
         tokens paren_start].
  rewrite Hopen, Hmatch, Hwrap.
  change (0 + 1 - 1 <? 0)%Z with false. change (0 + 1 - 1 =? 0)%Z with true.
  rewrite lookup_cons_ne_0 by lia. cbn [Nat.pred].
  rewrite list_lookup_middle by done. cbn [token_type bracket_token].
  by rewrite Hne.
Qed.

(** A group opened by one kind of bracket and closed by the other kind is
    rejected, whatever well-formed groups it holds. *)
Theorem parse_mismatched_brackets (a : Filter) :
  bracket_tree a = true ->
  parse (lit "(" ++ Filter_str a ++ lit "]")
  = SyntaxError "opening paren does not match closing paren"
  /\ parse (lit "[" ++ Filter_str a ++ lit ")")
     = SyntaxError "opening paren does not match closing paren".
Proof.
  intros Ha. pose proof (bracket_tree_chars a Ha) as Hchars.
  assert (Htok : forall o c to tc,
             bracket_char_token o = Some to ->
             bracket_char_token c = Some tc ->
             (o =? bom)%N = false ->
             tokenize ([o] ++ Filter_str a ++ [c])
             = Some (to :: bracket_tokens a ++ [tc])).
  { intros o c to tc Ho Hc Hbom. unfold tokenize. cbn [app]. rewrite Hbom.
    apply tokenize_loop_brackets; [|lia].
    constructor; [done|]. apply Forall2_app; [done|]. by constructor. }
  split.
  - change (lit "(") with [40%N]. change (lit "]") with [93%N].
    unfold parse, parse_tokens.
    rewrite (Htok 40%N 93%N _ _ eq_refl eq_refl eq_refl).
    rewrite fmap_cons, fmap_app. cbn [fmap list_fmap parse_fuel].
    apply (parse_body_group_mismatch _ open_paren close_array close_paren
             _ _ Parens); try done.
    + intros. by apply (paren_loop_balanced a).
    + apply bracket_items_Forall.
  - change (lit "[") with [91%N]. change (lit ")") with [41%N].
    unfold parse, parse_tokens.
    rewrite (Htok 91%N 41%N _ _ eq_refl eq_refl eq_refl).
    rewrite fmap_cons, fmap_app. cbn [fmap list_fmap parse_fuel].
    apply (parse_body_group_mismatch _ open_array close_paren close_array
             _ _ filter.Array); try done.
    + intros. by apply (paren_loop_balanced a).
    + apply bracket_items_Forall.
Qed.

Lemma parse_mismatched_brackets_witness :
  parse (lit "([]]") = SyntaxError "opening paren does not match closing paren".
Proof.
  apply (parse_mismatched_brackets (filter.Array EmptyFilter)). reflexivity.
Defined.

End ParserEdgeFacts.
